(** * ilana-orm: entities, query builder and eager loading

    A shallow embedding of the object-relational core of the repository, as
    the JavaScript modules have it: [orm/Model.js], [orm/QueryBuilder.js],
    [orm/Relation.js], [orm/ModelRegistry.js] and [orm/CustomCasts.js].

    JavaScript objects used as dictionaries are finite maps with string
    keys; [async] functions run to completion one after the other, so they
    are state transformers over a world made of the database, the clock and
    the log of everything the code asked of the outside.

    The file has four parts: the embedding, the vocabulary of the
    statements, the models and tables of the examples, and the properties. *)

From stdpp Require Import gmap strings list fin_maps pretty.
From Stdlib Require Import Floats Uint63.

Set Default Proof Using "Type".
Local Open Scope Z_scope.

(** ** JavaScript values stored in rows and attributes *)

Inductive jsval : Type :=
| VUndefined
| VNull
| VBool (b : bool)
| VNum (n : Z)
| VStr (s : string)
| VDate (t : Z).

#[global] Instance jsval_eq_dec : EqDecision jsval.
Proof. solve_decision. Defined.

(** [Boolean(v)], the test behind [if (v)], [!v] and [.filter(Boolean)]. *)
Definition truthy (v : jsval) : bool :=
  match v with
  | VUndefined | VNull => false
  | VBool b => b
  | VNum n => negb (n =? 0)
  | VStr s => negb (String.eqb s "")
  | VDate _ => true
  end.

(** [v != null]: neither [null] nor [undefined]. *)
Definition nullish (v : jsval) : bool :=
  match v with
  | VUndefined | VNull => true
  | _ => false
  end.

(** [o[k]] on a plain object: [undefined] when the key is absent. *)
Definition prop (o : gmap string jsval) (k : string) : jsval :=
  default VUndefined (o !! k).

(** ** What the host provides

    Built-ins of the JavaScript runtime and of the libraries the code calls
    ([JSON], [Date] formatting, [moment-timezone], [Math.random]) are taken
    as parameters: no property below depends on what they compute. *)

Record Host : Type := mkHost {
  JSON_stringify : jsval → jsval;
  JSON_parse : jsval → option jsval;      (* [None]: [JSON.parse] throws *)
  formatDate : Z → string;                (* [YYYY-MM-DD HH:mm:ss] of a Date *)
  momentFormat : jsval → option jsval;    (* [None]: [moment.tz] throws *)
  dateToString : Z → string;              (* [String(date)] *)
  generateUuid : nat → string             (* the uuid drawn from [Math.random] *)
}.

(** [ToPropertyKey(v)]: the key under which [grouped[v]] is stored. *)
Definition toPropertyKey (H : Host) (v : jsval) : string :=
  match v with
  | VUndefined => "undefined"
  | VNull => "null"
  | VBool true => "true"
  | VBool false => "false"
  | VNum n => pretty n
  | VStr s => s
  | VDate t => dateToString H t
  end.

(** ** The query execution engine

    The engine (Knex in the source) is an external collaborator.  It is
    modelled by tables of rows held in memory and the usual meaning of the
    clauses that the code builds. *)

Inductive Pred : Type :=
| PEq (col : string) (v : jsval)
| PIn (col : string) (vs : list jsval)
| PNull (col : string)
| PNotNull (col : string).

#[global] Instance Pred_eq_dec : EqDecision Pred.
Proof. solve_decision. Defined.

Definition sql_null (o : option jsval) : bool :=
  match o with
  | None | Some VNull | Some VUndefined => true
  | Some _ => false
  end.

(** SQL comparison: [NULL] is equal to nothing.  Knex turns
    [where(col, null)] into [col IS NULL]; it refuses [undefined], which is
    rendered here by a clause that no row satisfies. *)
Definition matches (r : gmap string jsval) (p : Pred) : bool :=
  match p with
  | PEq c VNull => sql_null (r !! c)
  | PEq c v => negb (sql_null (r !! c)) && bool_decide (r !! c = Some v)
  | PIn c vs => negb (sql_null (r !! c)) && bool_decide (prop r c ∈ vs)
  | PNull c => sql_null (r !! c)
  | PNotNull c => negb (sql_null (r !! c))
  end.

Definition matches_all (ps : list Pred) (r : gmap string jsval) : bool :=
  forallb (matches r) ps.

(** The Knex builder behind [QueryBuilder.query]: a table and the
    [where] clauses accumulated so far. *)
Record Knex : Type := mkKnex {
  k_table : string;
  k_wheres : list Pred
}.

Definition k_where (p : Pred) (k : Knex) : Knex :=
  {| k_table := k_table k; k_wheres := k_wheres k ++ [p] |}.

(** Everything the code asks of the outside, in order. *)
Inductive Event : Type :=
| EvHook (evt : string)
| EvSelect (tbl : string) (ps : list Pred)
| EvSelectFirst (tbl : string) (ps : list Pred)
| EvInsert (tbl : string) (data : gmap string jsval)
| EvInsertGetId (tbl : string) (data : gmap string jsval) (pk : string)
| EvUpdate (tbl : string) (ps : list Pred) (data : gmap string jsval)
| EvDelete (tbl : string) (ps : list Pred).

Definition is_query (e : Event) : bool :=
  match e with
  | EvHook _ => false
  | _ => true
  end.

Record World : Type := mkWorld {
  db : gmap string (list (gmap string jsval));
  clock : Z;
  entropy : nat;
  trace : list Event
}.

Definition rows_of (w : World) (tbl : string) : list (gmap string jsval) :=
  default [] (db w !! tbl).

Definition log (e : Event) (w : World) : World :=
  {| db := db w; clock := clock w; entropy := entropy w;
     trace := trace w ++ [e] |}.

Definition set_rows (tbl : string) (rs : list (gmap string jsval)) (w : World)
  : World :=
  {| db := <[tbl := rs]> (db w); clock := clock w; entropy := entropy w;
     trace := trace w |}.

(** A state monad over the world. *)
Definition IO (A : Type) : Type := World → A * World.

Definition ret {A} (a : A) : IO A := λ w, (a, w).
Definition bind {A B} (m : IO A) (k : A → IO B) : IO B :=
  λ w, let (a, w') := m w in k a w'.

Notation "'do' x <- m ; k" := (bind m (λ x, k))
  (at level 10, x name, m at level 100, k at level 200).
Notation "'do' ' p <- m ; k" := (bind m (λ x, match x with p => k end))
  (at level 10, p pattern, m at level 100, k at level 200).
Notation "m ;; k" := (bind m (λ _, k))
  (at level 100, k at level 200, right associativity).

Definition emit (e : Event) : IO unit := λ w, (tt, log e w).

(** [await query]: all the rows of the table that satisfy the clauses. *)
Definition knex_select (k : Knex) : IO (list (gmap string jsval)) :=
  λ w, (filter (λ r, matches_all (k_wheres k) r = true) (rows_of w (k_table k)),
        log (EvSelect (k_table k) (k_wheres k)) w).

(** [await query.first()]. *)
Definition knex_first (k : Knex) : IO (option (gmap string jsval)) :=
  λ w, (head (filter (λ r, matches_all (k_wheres k) r = true)
                     (rows_of w (k_table k))),
        log (EvSelectFirst (k_table k) (k_wheres k)) w).

Definition knex_insert (k : Knex) (data : gmap string jsval) : IO unit :=
  λ w, (tt, log (EvInsert (k_table k) data)
              (set_rows (k_table k) (rows_of w (k_table k) ++ [data]) w)).

(** The key a sequence would hand out next: one more than the largest
    numeric key in the table. *)
Definition next_id (pk : string) (rs : list (gmap string jsval)) : Z :=
  1 + foldr (λ r acc, match r !! pk with
                      | Some (VNum n) => Z.max n acc
                      | _ => acc
                      end) 0 rs.

(** [query.insert(data, pk)]: the engine answers with the key of the row. *)
Definition knex_insert_returning (k : Knex) (data : gmap string jsval)
    (pk : string) : IO (list jsval) :=
  λ w,
    let rs := rows_of w (k_table k) in
    let id := if sql_null (data !! pk) then VNum (next_id pk rs)
              else prop data pk in
    ([id], log (EvInsertGetId (k_table k) data pk)
             (set_rows (k_table k) (rs ++ [<[pk := id]> data]) w)).

(** [query.update(data)]: answers with the number of rows changed. *)
Definition knex_update (k : Knex) (data : gmap string jsval) : IO Z :=
  λ w,
    let rs := rows_of w (k_table k) in
    (Z.of_nat (length (filter (λ r, matches_all (k_wheres k) r = true) rs)),
     log (EvUpdate (k_table k) (k_wheres k) data)
       (set_rows (k_table k)
          ((λ r, if matches_all (k_wheres k) r then data ∪ r else r) <$> rs) w)).

Definition knex_del (k : Knex) : IO Z :=
  λ w,
    let rs := rows_of w (k_table k) in
    (Z.of_nat (length (filter (λ r, matches_all (k_wheres k) r = true) rs)),
     log (EvDelete (k_table k) (k_wheres k))
       (set_rows (k_table k)
          (filter (λ r, matches_all (k_wheres k) r = false) rs) w)).

Definition now : IO Z := λ w, (clock w, w).

Definition random_uuid (H : Host) : IO string :=
  λ w, (generateUuid H (entropy w),
        {| db := db w; clock := clock w; entropy := S (entropy w);
           trace := trace w |}).

(** ** Entities ([Model.js])

    [relations] holds entities again, so the record is tied into a nested
    inductive type. *)

Record ModelOf (R : Type) : Type := mkModel {
  attributes : gmap string jsval;
  original : gmap string jsval;
  relations : gmap string R;
  exists_ : bool;
  wasRecentlyCreated : bool;
  _dirty : list string;                           (* a [Set], in insertion order *)
  _deferred : option (gmap string jsval)
}.
Arguments mkModel {R}.
Arguments attributes {R}.
Arguments original {R}.
Arguments relations {R}.
Arguments exists_ {R}.
Arguments wasRecentlyCreated {R}.
Arguments _dirty {R}.
Arguments _deferred {R}.

#[warnings="-register-all"]
Inductive relval : Type :=
| RNull
| ROne (m : ModelOf relval)
| RMany (ms : list (ModelOf relval)).

Abbreviation Model := (ModelOf relval).

(** A lifecycle handler sees the entity, answers with a value and may
    assign attributes through the entity's setter. *)
Definition Handler : Type := Model → jsval * list (string * jsval).

(** The state of a [QueryBuilder] apart from its model class. *)
Record QB : Type := mkQB {
  query : Knex;
  eagerLoad : list string;
  eagerLoadConstraints : gmap string (Knex → Knex);
  _includeTrashed : bool;
  _onlyTrashed : bool
}.

Inductive RelKind : Type :=
| HasOne | HasMany | BelongsTo | BelongsToMany | HasManyThrough
| MorphTo | MorphMany.

#[global] Instance RelKind_eq_dec : EqDecision RelKind.
Proof. solve_decision. Defined.

(** [related] is a registry name, or the base class [Model] itself, which is
    what [MorphTo] hands to its parent constructor. *)
Inductive RelatedRef : Type :=
| RName (n : string)
| RBase.

Record Relation : Type := mkRelation {
  kind : RelKind;
  related : RelatedRef;
  foreignKey : string;
  localKey : string;
  morphType : string;
  morphId : string
}.

(** The static side of a model class and the instance fields that a subclass
    declares ([fillable], [guarded], [casts], relation methods). *)
Record ModelClass : Type := mkClass {
  name : string;
  table : string;                                 (* [""]: not declared *)
  primaryKey : string;
  keyType : string;
  incrementing : bool;
  timestamps : bool;
  softDeletes : bool;
  fillable : list string;
  guarded : list string;
  casts : gmap string string;
  events : gmap string (list Handler);
  globalScopes : list (string * (QB → QB));
  relationMethods : gmap string (Model → Relation)
}.

Definition lower_ascii (c : Ascii.ascii) : Ascii.ascii :=
  let n := Ascii.nat_of_ascii c in
  if (Nat.leb 65 n && Nat.leb n 90)%bool then Ascii.ascii_of_nat (n + 32) else c.

Fixpoint toLowerCase (s : string) : string :=
  match s with
  | EmptyString => EmptyString
  | String c s' => String (lower_ascii c) (toLowerCase s')
  end.

Definition getTableName (cls : ModelClass) : string :=
  if String.eqb (table cls) "" then toLowerCase (name cls) +:+ "s"
  else table cls.

Definition getPrimaryKey (cls : ModelClass) : string := primaryKey cls.

(** Field updates. *)
Definition with_attributes (a : gmap string jsval) (m : Model) : Model :=
  mkModel a (original m) (relations m) (exists_ m) (wasRecentlyCreated m)
    (_dirty m) (_deferred m).
Definition with_exists (b : bool) (m : Model) : Model :=
  mkModel (attributes m) (original m) (relations m) b (wasRecentlyCreated m)
    (_dirty m) (_deferred m).
Definition with_recently (b : bool) (m : Model) : Model :=
  mkModel (attributes m) (original m) (relations m) (exists_ m) b
    (_dirty m) (_deferred m).
Definition with_dirty (d : list string) (m : Model) : Model :=
  mkModel (attributes m) (original m) (relations m) (exists_ m)
    (wasRecentlyCreated m) d (_deferred m).
Definition with_deferred (d : option (gmap string jsval)) (m : Model) : Model :=
  mkModel (attributes m) (original m) (relations m) (exists_ m)
    (wasRecentlyCreated m) (_dirty m) d.
Definition with_relation (k : string) (r : relval) (m : Model) : Model :=
  mkModel (attributes m) (original m) (<[k := r]> (relations m)) (exists_ m)
    (wasRecentlyCreated m) (_dirty m) (_deferred m).

(** [_dirty.add(k)]. *)
Definition set_add (k : string) (d : list string) : list string :=
  if bool_decide (k ∈ d) then d else d ++ [k].

Section Entity.
Context (H : Host).

(** [new this(attrs)]: attributes are deferred when there are any. *)
Definition new_model (attrs : gmap string jsval) : Model :=
  mkModel ∅ ∅ ∅ false false []
    (if bool_decide (attrs = ∅) then None else Some attrs).

Definition is_json (c : option string) : bool :=
  bool_decide (c = Some "json") || bool_decide (c = Some "array").

Definition setAttribute (cls : ModelClass) (k : string) (v : jsval)
    (m : Model) : Model :=
  let cast := casts cls !! k in
  let val := if is_json cast
             then match v with VStr _ => v | _ => JSON_stringify H v end
             else v in
  let val := match v with
             | VDate t => if bool_decide (cast = Some "date")
                          then VStr (formatDate H t) else val
             | _ => val
             end in
  let m' := with_attributes (<[k := val]> (attributes m)) m in
  if negb (bool_decide (is_Some (_deferred m))) && exists_ m
  then with_dirty (set_add k (_dirty m)) m'
  else m'.

Definition getAttribute (cls : ModelClass) (k : string) (m : Model) : jsval :=
  let val := prop (attributes m) k in
  let cast := casts cls !! k in
  if is_json cast then default val (JSON_parse H val)
  else if bool_decide (cast = Some "date") && negb (nullish val)
       then default val (momentFormat H val)
       else val.

Definition syncOriginal (m : Model) : Model :=
  mkModel (attributes m) (attributes m) (relations m) (exists_ m)
    (wasRecentlyCreated m) [] (_deferred m).

Definition set_all (cls : ModelClass) (kvs : list (string * jsval))
    (m : Model) : Model :=
  foldl (λ acc kv, setAttribute cls kv.1 kv.2 acc) m kvs.

Definition _initialize (cls : ModelClass) (m : Model) : Model :=
  match _deferred m with
  | None => m
  | Some d => with_deferred None (syncOriginal (set_all cls (map_to_list d) m))
  end.

Definition getKey (cls : ModelClass) (m : Model) : jsval :=
  prop (attributes m) (primaryKey cls).

Definition isFillable (cls : ModelClass) (k : string) : bool :=
  match fillable cls with
  | _ :: _ => bool_decide (k ∈ fillable cls)
  | [] => if bool_decide ("*" ∈ guarded cls) then false
          else negb (bool_decide (k ∈ guarded cls))
  end.

Definition fill (cls : ModelClass) (attrs : gmap string jsval) (m : Model)
  : Model :=
  set_all cls (filter (λ kv, isFillable cls kv.1 = true) (map_to_list attrs)) m.

Definition isDirty (m : Model) : bool :=
  negb (bool_decide (_dirty m = [])).

Definition isDirtyKey (k : string) (m : Model) : bool :=
  bool_decide (k ∈ _dirty m).

Definition getDirty (m : Model) : gmap string jsval :=
  foldl (λ acc k, <[k := prop (attributes m) k]> acc) ∅ (_dirty m).

(** [new QueryBuilder(table, cls, connection)]. *)
Definition new_builder (tbl : string) : QB :=
  mkQB (mkKnex tbl []) [] ∅ false false.

Definition applyGlobalScopes (cls : ModelClass) (qb : QB) : QB :=
  foldl (λ acc s, s.2 acc) qb (globalScopes cls).

(** [Model.query()]. *)
Definition query_of (cls : ModelClass) : QB :=
  applyGlobalScopes cls (new_builder (getTableName cls)).

Definition qb_where (p : Pred) (qb : QB) : QB :=
  mkQB (k_where p (query qb)) (eagerLoad qb) (eagerLoadConstraints qb)
    (_includeTrashed qb) (_onlyTrashed qb).

(** [QueryBuilder.insertGetId]. *)
Definition insertGetId (cls : ModelClass) (qb : QB)
    (data : gmap string jsval) : IO jsval :=
  do result <- knex_insert_returning (query qb) data (getPrimaryKey cls);
  ret (match result with
       | firstItem :: _ => firstItem
       | [] => VNull
       end).

(** [Model.fireEvent]: handlers run in registration order; the answer is
    [false] as soon as one of them returns exactly [false]. *)
Fixpoint run_handlers (cls : ModelClass) (evt : string) (hs : list Handler)
    (m : Model) : IO (bool * Model) :=
  match hs with
  | [] => ret (true, m)
  | h :: hs' =>
      emit (EvHook evt) ;;
      let (r, writes) := h m in
      let m' := set_all cls writes m in
      if bool_decide (r = VBool false) then ret (false, m')
      else run_handlers cls evt hs' m'
  end.

Definition fireEvent (cls : ModelClass) (evt : string) (m : Model)
  : IO (bool * Model) :=
  run_handlers cls evt (default [] (events cls !! evt)) m.

Definition stamp (cls : ModelClass) (keys : list string) (m : Model)
  : IO Model :=
  if timestamps cls
  then do t <- now; ret (set_all cls ((λ k, (k, VDate t)) <$> keys) m)
  else ret m.

Definition save_insert (cls : ModelClass) (m : Model) : IO (bool * Model) :=
  do '(ok, m) <- fireEvent cls "creating" m;
  if negb ok then ret (false, m) else
  do '(ok, m) <- fireEvent cls "saving" m;
  if negb ok then ret (false, m) else
  do m <- stamp cls ["created_at"; "updated_at"] m;
  do m <- (if negb (incrementing cls)
              && bool_decide (keyType cls = "string")
              && negb (truthy (getKey cls m))
           then do u <- random_uuid H;
                ret (setAttribute cls (primaryKey cls) (VStr u) m)
           else ret m);
  let qb := query_of cls in
  do m <- (if incrementing cls
           then do id <- insertGetId cls qb (attributes m);
                ret (setAttribute cls (primaryKey cls) id m)
           else knex_insert (query qb) (attributes m) ;; ret m);
  let m := with_recently true (with_exists true m) in
  do '(_, m) <- fireEvent cls "created" m;
  do '(_, m) <- fireEvent cls "saved" m;
  ret (true, syncOriginal m).

Definition save_update (cls : ModelClass) (m : Model) : IO (bool * Model) :=
  do '(ok, m) <- fireEvent cls "updating" m;
  if negb ok then ret (false, m) else
  do '(ok, m) <- fireEvent cls "saving" m;
  if negb ok then ret (false, m) else
  do m <- stamp cls ["updated_at"] m;
  let updateData := delete "created_at" (getDirty m) in
  (if bool_decide (updateData = ∅) then ret 0
   else knex_update
          (query (qb_where (PEq (primaryKey cls) (getKey cls m)) (query_of cls)))
          updateData) ;;
  do '(_, m) <- fireEvent cls "updated" m;
  do '(_, m) <- fireEvent cls "saved" m;
  ret (true, syncOriginal m).

(** [Model.prototype.save]. *)
Definition save (cls : ModelClass) (m : Model) : IO (bool * Model) :=
  let m := _initialize cls m in
  if negb (exists_ m) then save_insert cls m
  else if isDirty m then save_update cls m
  else ret (true, m).

(** [Model.prototype.delete].  The answers of the [deleting] handlers and of
    the inner [save] are not looked at. *)
Definition delete_ (cls : ModelClass) (m : Model) : IO (bool * Model) :=
  if negb (exists_ m) then ret (false, m) else
  do '(_, m) <- fireEvent cls "deleting" m;
  do m <- (if softDeletes cls
           then do t <- now;
                do '(_, m) <- save cls (setAttribute cls "deleted_at" (VDate t) m);
                ret m
           else knex_del
                  (query (qb_where (PEq (primaryKey cls) (getKey cls m))
                                   (query_of cls))) ;;
                ret (with_exists false m));
  do '(_, m) <- fireEvent cls "deleted" m;
  ret (true, m).

(** [Model.prototype.restore]. *)
Definition restore (cls : ModelClass) (m : Model) : IO (bool * Model) :=
  if negb (softDeletes cls) || negb (truthy (getAttribute cls "deleted_at" m))
  then ret (false, m) else
  do '(_, m) <- fireEvent cls "restoring" m;
  do '(_, m) <- save cls (setAttribute cls "deleted_at" VNull m);
  do '(_, m) <- fireEvent cls "restored" m;
  ret (true, m).

(** [Model.prototype.update]. *)
Definition update (cls : ModelClass) (attrs : gmap string jsval) (m : Model)
  : IO (bool * Model) :=
  save cls (fill cls attrs m).

End Entity.

(** ** Failures *)

Inductive Result (A : Type) : Type :=
| Ok (a : A)
| Throw (msg : string).
Arguments Ok {A}.
Arguments Throw {A}.

(** ** The type registry ([ModelRegistry.js]) *)

Module ModelRegistry.

Definition register (nm : string) (cls : option ModelClass)
    (models : gmap string ModelClass) : gmap string ModelClass :=
  match cls with
  | Some c => if String.eqb nm "" then models else <[nm := c]> models
  | None => models
  end.

(** [Map.get] with any value as the key: only strings were ever stored. *)
Definition get (models : gmap string ModelClass) (key : jsval)
  : option ModelClass :=
  match key with
  | VStr s => models !! s
  | _ => None
  end.

Definition has (models : gmap string ModelClass) (key : jsval) : bool :=
  bool_decide (is_Some (get models key)).

End ModelRegistry.

(** ** Dotted relation paths *)

Fixpoint split_dot (s : string) : list string :=
  match s with
  | EmptyString => [EmptyString]
  | String c s' =>
      if Ascii.eqb c (Ascii.ascii_of_nat 46) then EmptyString :: split_dot s'
      else match split_dot s' with
           | h :: t => String c h :: t
           | [] => [String c EmptyString]
           end
  end.

Fixpoint join_dot (l : list string) : string :=
  match l with
  | [] => ""
  | [a] => a
  | a :: rest => a +:+ "." +:+ join_dot rest
  end.

(** ** The query builder ([QueryBuilder.js])

    Of the fluent methods, the ones that the model, the relations and the
    eager loader call are here.  Every query goes to the one database of
    the world: named connections and the ambient transaction are left out,
    and so are the property getters that [_createAttributeGetters] installs. *)

Section Builder.
Context (H : Host).
Context (registry : gmap string ModelClass).

Definition whereIn (col : string) (vs : list jsval) (qb : QB) : QB :=
  qb_where (PIn col vs) qb.
Definition whereNull (col : string) (qb : QB) : QB := qb_where (PNull col) qb.
Definition whereNotNull (col : string) (qb : QB) : QB :=
  qb_where (PNotNull col) qb.

Definition with_ (rels : list string) (qb : QB) : QB :=
  mkQB (query qb) (eagerLoad qb ++ rels) (eagerLoadConstraints qb)
    (_includeTrashed qb) (_onlyTrashed qb).

Definition withTrashed (qb : QB) : QB :=
  mkQB (query qb) (eagerLoad qb) (eagerLoadConstraints qb) true (_onlyTrashed qb).

Definition onlyTrashed (qb : QB) : QB :=
  mkQB (query qb) (eagerLoad qb) (eagerLoadConstraints qb)
    (_includeTrashed qb) true.

(** The filter that [get], [first] and [find] put on the sentinel column. *)
Definition soft_delete_filter (cls : ModelClass) (qb : QB) : list Pred :=
  if softDeletes cls then
    if _onlyTrashed qb then [PNotNull "deleted_at"]
    else if negb (_includeTrashed qb) then [PNull "deleted_at"]
    else []
  else [].

Definition filtered (cls : ModelClass) (qb : QB) : Knex :=
  mkKnex (k_table (query qb)) (k_wheres (query qb) ++ soft_delete_filter cls qb).

(** [new this.modelClass(row); model.exists = true; model._initialize()]. *)
Definition hydrate (cls : ModelClass) (row : gmap string jsval) : Model :=
  _initialize H cls (with_exists true (new_model row)).

(** The base class [Model], as a class of its own. *)
Definition base_model : ModelClass :=
  mkClass "Model" "" "id" "int" true true false [] ["*"] ∅ ∅ [] ∅.

(** [Relation.getRelatedClass] for the relations that [Model.js] builds. *)
Definition getRelatedClass (rel : Relation) : Result ModelClass :=
  match related rel with
  | RName n =>
      match registry !! n with
      | Some c => Ok c
      | None => Throw ("Model '" +:+ n +:+ "' not found. Make sure to call "
                       +:+ n +:+ ".register().")
      end
  | RBase => Ok (default base_model (registry !! "Model"))
  end.

Definition is_singular (k : RelKind) : bool :=
  bool_decide (k = HasOne) || bool_decide (k = BelongsTo).

(** The grouping loop of [loadRelation]: related entities filed under the
    property key of their own primary key. *)
Definition group_related (relatedClass : ModelClass) (relatedArray : list Model)
  : gmap string (list Model) :=
  foldl (λ grouped relatedModel,
           let key := toPropertyKey H
                        (getAttribute H relatedClass (getPrimaryKey relatedClass)
                           relatedModel) in
           <[key := default [] (grouped !! key) ++ [relatedModel]]> grouped)
        ∅ relatedArray.

(** The assignment loop of [loadRelation]. *)
Definition assign_related (cls : ModelClass) (rel : Relation) (relation : string)
    (grouped : gmap string (list Model)) (model : Model) : Model :=
  let matchValue :=
    if bool_decide (kind rel = BelongsTo)
    then getAttribute H cls (foreignKey rel) model
    else getAttribute H cls (localKey rel) model in
  let related_ := default [] (grouped !! toPropertyKey H matchValue) in
  if is_singular (kind rel)
  then with_relation relation
         (match related_ with m :: _ => ROne m | [] => RNull end) model
  else with_relation relation (RMany related_) model.

(** [QueryBuilder.loadRelation(models, relationName)], by recursion on the
    segments that follow the first one.  The query for the related class is a
    fresh builder whose only eager load is the rest of the path, so its [get]
    comes back here with one segment less. *)
Fixpoint load_path (cls : ModelClass) (constraint : option (Knex → Knex))
    (relation : string) (rest : list string) (models : list Model)
    {struct rest} : IO (Result (list Model)) :=
  let nested := join_dot rest in
  match models with
  | [] => ret (Ok models)
  | firstModel :: _ =>
  match relationMethods cls !! relation with
  | None => ret (Throw ("Relation '" +:+ relation +:+ "' not found on model"))
  | Some relationMethod =>
      let relationInstance := relationMethod firstModel in
      let foreignKey_ := foreignKey relationInstance in
      let localKey_ := localKey relationInstance in
      let localValues :=
        filter (λ v, truthy v = true)
               ((λ model, getAttribute H cls localKey_ model) <$> models) in
      if bool_decide (localValues = []) then ret (Ok models) else
      match getRelatedClass relationInstance with
      | Throw msg => ret (Throw msg)
      | Ok relatedClass =>
          let relationQuery := new_builder (getTableName relatedClass) in
          let relationQuery :=
            if bool_decide (kind relationInstance = BelongsTo)
            then whereIn (getPrimaryKey relatedClass)
                   (filter (λ v, truthy v = true)
                      ((λ model, getAttribute H cls foreignKey_ model) <$> models))
                   relationQuery
            else whereIn foreignKey_ localValues relationQuery in
          let relationQuery :=
            match constraint with
            | Some f => mkQB (f (query relationQuery)) [] ∅ false false
            | None => relationQuery
            end in
          do rows <- knex_select (filtered relatedClass relationQuery);
          let fetched := hydrate relatedClass <$> rows in
          do relatedModels <-
            (match rest with
             | next :: rest' =>
                 if String.eqb nested "" then ret (Ok fetched)
                 else load_path relatedClass None next rest' fetched
             | [] => ret (Ok fetched)
             end);
          match relatedModels with
          | Throw msg => ret (Throw msg)
          | Ok relatedArray =>
              let grouped := group_related relatedClass relatedArray in
              ret (Ok (assign_related cls relationInstance relation grouped
                         <$> models))
          end
      end
  end
  end.

Definition loadRelation (cls : ModelClass) (qb : QB) (models : list Model)
    (relationName : string) : IO (Result (list Model)) :=
  match split_dot relationName with
  | relation :: rest =>
      load_path cls (eagerLoadConstraints qb !! relationName) relation rest models
  | [] => ret (Ok models)
  end.

(** [QueryBuilder.loadRelations]. *)
Fixpoint load_each (cls : ModelClass) (qb : QB) (names : list string)
    (models : list Model) : IO (Result (list Model)) :=
  match names with
  | [] => ret (Ok models)
  | relationName :: names' =>
      do r <- loadRelation cls qb models relationName;
      match r with
      | Throw msg => ret (Throw msg)
      | Ok models' => load_each cls qb names' models'
      end
  end.

Definition loadRelations (cls : ModelClass) (qb : QB) (models : list Model)
  : IO (Result (list Model)) :=
  match models with
  | [] => ret (Ok models)
  | _ => load_each cls qb (eagerLoad qb) models
  end.

(** [QueryBuilder.get]. *)
Definition get (cls : ModelClass) (qb : QB) : IO (Result (list Model)) :=
  do rows <- knex_select (filtered cls qb);
  let models := hydrate cls <$> rows in
  match eagerLoad qb with
  | [] => ret (Ok models)
  | _ => loadRelations cls qb models
  end.

(** [QueryBuilder.first]. *)
Definition first (cls : ModelClass) (qb : QB) : IO (Result (option Model)) :=
  do row <- knex_first (filtered cls qb);
  match row with
  | None => ret (Ok None)
  | Some row =>
      let model := hydrate cls row in
      match eagerLoad qb with
      | [] => ret (Ok (Some model))
      | _ => do r <- loadRelations cls qb [model];
             ret (match r with
                  | Throw msg => Throw msg
                  | Ok ms => Ok (head ms)
                  end)
      end
  end.

(** [QueryBuilder.find]: the clause is on the column called [id]. *)
Definition find (cls : ModelClass) (qb : QB) (id : jsval)
  : IO (Result (option Model)) :=
  first cls (qb_where (PEq "id" id) qb).

Definition findOrFail (cls : ModelClass) (qb : QB) (id : jsval)
  : IO (Result Model) :=
  do r <- find cls qb id;
  ret (match r with
       | Throw msg => Throw msg
       | Ok None => Throw ("Model not found with id: " +:+ toPropertyKey H id)
       | Ok (Some m) => Ok m
       end).

(** ** Relations resolved for one owner ([Relation.js]) *)

(** [Relation.newQuery]. *)
Definition newQuery (rel : Relation) : Result (ModelClass * QB) :=
  match getRelatedClass rel with
  | Ok relatedClass => Ok (relatedClass, new_builder (getTableName relatedClass))
  | Throw msg => Throw msg
  end.

(** [HasOne.getResults]. *)
Definition hasOne_getResults (cls : ModelClass) (rel : Relation)
    (parent : Model) : IO (Result (option Model)) :=
  match newQuery rel with
  | Ok (relatedClass, qb) =>
      first relatedClass
        (qb_where (PEq (foreignKey rel) (getAttribute H cls (localKey rel) parent))
                  qb)
  | Throw msg => ret (Throw msg)
  end.

(** [HasMany.getResults]. *)
Definition hasMany_getResults (cls : ModelClass) (rel : Relation)
    (parent : Model) : IO (Result (list Model)) :=
  match newQuery rel with
  | Ok (relatedClass, qb) =>
      get relatedClass
        (qb_where (PEq (foreignKey rel) (getAttribute H cls (localKey rel) parent))
                  qb)
  | Throw msg => ret (Throw msg)
  end.

(** [BelongsTo.getResults]. *)
Definition belongsTo_getResults (cls : ModelClass) (rel : Relation)
    (parent : Model) : IO (Result (option Model)) :=
  match newQuery rel with
  | Ok (relatedClass, qb) =>
      first relatedClass
        (qb_where (PEq (localKey rel) (getAttribute H cls (foreignKey rel) parent))
                  qb)
  | Throw msg => ret (Throw msg)
  end.

(** [MorphTo.getResults]. *)

Definition morphTo_getResults (cls : ModelClass) (rel : Relation)
    (parent : Model) : IO (Result (option Model)) :=
  let morphType_ := getAttribute H cls (morphType rel) parent in
  let morphId_ := getAttribute H cls (morphId rel) parent in
  if negb (truthy morphType_) || negb (truthy morphId_) then ret (Ok None)
  else match ModelRegistry.get registry morphType_ with
       | None =>
           ret (Throw ("Model '" +:+ toPropertyKey H morphType_
                       +:+ "' not found in registry. Register it using ModelRegistry.register()"))
       | Some ModelClass_ =>
           first ModelClass_
             (qb_where (PEq (getPrimaryKey ModelClass_) morphId_)
                       (new_builder (getTableName ModelClass_)))
       end.

End Builder.

(** ** The rest of the model's interface ([Model.js]) *)

Section Interface.
Context (H : Host) (registry : gmap string ModelClass).

(** [Model.make]. *)
Definition make (cls : ModelClass) (attrs : gmap string jsval) : IO Model :=
  let inst := _initialize H cls (new_model attrs) in
  if negb (incrementing cls) && bool_decide (keyType cls = "string")
     && negb (truthy (getKey cls inst))
  then do u <- random_uuid H;
       ret (setAttribute H cls (primaryKey cls) (VStr u) inst)
  else ret inst.

(** [Model.create]: the entity is handed back whatever [save] answered. *)
Definition create (cls : ModelClass) (attrs : gmap string jsval) : IO Model :=
  do inst <- make cls attrs;
  do '(_, inst) <- save H cls inst;
  ret inst.

(** [Model.prototype.forceDelete]. *)
Definition forceDelete (cls : ModelClass) (m : Model) : IO (bool * Model) :=
  if negb (exists_ m) then ret (false, m) else
  do '(_, m) <- fireEvent H cls "deleting" m;
  knex_del (query (qb_where (PEq (primaryKey cls) (getKey cls m))
                            (query_of cls))) ;;
  let m := with_exists false m in
  do '(_, m) <- fireEvent H cls "deleted" m;
  ret (true, m).

(** [Model.prototype.trashed]. *)
Definition trashed (cls : ModelClass) (m : Model) : bool :=
  softDeletes cls
  && negb (bool_decide (getAttribute H cls "deleted_at" m = VNull)).

(** [Model.prototype.only] and [Model.prototype.except]. *)
Definition only (cls : ModelClass) (keys : list string) (m : Model)
  : gmap string jsval :=
  foldl (λ result key,
           if bool_decide (is_Some (attributes m !! key))
           then <[key := getAttribute H cls key m]> result
           else result)
        ∅ keys.

Definition except (cls : ModelClass) (keys : list string) (m : Model)
  : gmap string jsval :=
  foldl (λ result kv,
           if bool_decide (kv.1 ∈ keys) then result
           else <[kv.1 := getAttribute H cls kv.1 m]> result)
        ∅ (map_to_list (attributes m)).

(** [where(object)]: one equality clause per entry of the object. *)
Definition where_object (o : gmap string jsval) (qb : QB) : QB :=
  foldl (λ acc kv, qb_where (PEq kv.1 kv.2) acc) qb (map_to_list o).

(** [Model.firstOrCreate]; in [{...a, ...v}] the values win. *)
Definition firstOrCreate (cls : ModelClass) (a v : gmap string jsval)
  : IO (Result Model) :=
  do existing <- first H registry cls (where_object a (query_of cls));
  match existing with
  | Throw msg => ret (Throw msg)
  | Ok (Some existing) => ret (Ok existing)
  | Ok None => do m <- create cls (v ∪ a); ret (Ok m)
  end.

(** [Model.updateOrCreate]. *)
Definition updateOrCreate (cls : ModelClass) (a v : gmap string jsval)
  : IO (Result Model) :=
  do existing <- first H registry cls (where_object a (query_of cls));
  match existing with
  | Throw msg => ret (Throw msg)
  | Ok (Some existing) =>
      do '(_, existing) <- update H cls v existing;
      ret (Ok existing)
  | Ok None => do m <- create cls (v ∪ a); ret (Ok m)
  end.

End Interface.

(** The argument of [Model.destroy]: one key or an array of keys. *)
Inductive Ids : Type :=
| OneId (id : jsval)
| ManyIds (ids : list jsval).

(** [Model.destroy]. *)
Definition destroy (cls : ModelClass) (ids : Ids) : IO Z :=
  knex_del (query (whereIn (primaryKey cls)
                     (match ids with ManyIds l => l | OneId id => [id] end)
                     (query_of cls))).

(** [Model.register]: the class is registered under its own name. *)
Definition register (cls : ModelClass) (models : gmap string ModelClass)
  : gmap string ModelClass :=
  ModelRegistry.register (name cls) (Some cls) models.

(** ** More of the query builder ([QueryBuilder.js]) *)

(** [QueryBuilder.clone]: the query, the eager loads and their constraints
    are copied; the soft-delete switches are not. *)
Definition clone (qb : QB) : QB :=
  mkQB (query qb) (eagerLoad qb) (eagerLoadConstraints qb) false false.

(** [QueryBuilder.withCount]. *)
Definition withCount (rels : list string) (qb : QB) : QB :=
  mkQB (query qb) (eagerLoad qb ++ ((λ relation, relation +:+ "_count") <$> rels))
    (eagerLoadConstraints qb) (_includeTrashed qb) (_onlyTrashed qb).

(** ** Polymorphic and many-to-many relations ([Relation.js]) *)

(** [MorphMany]: a relation and the type name stored beside the id. *)
Record MorphManyRelation : Type := mkMorphMany {
  mm_relation : Relation;
  morphClass : string
}.

(** [BelongsToMany]: a relation and its pivot table. *)
Record BelongsToManyRelation : Type := mkBelongsToMany {
  btm_relation : Relation;
  pivotTable : string;
  parentPivotKey : string;
  relatedPivotKey : string;
  parentKey : string;
  relatedKey : string;
  pivotColumns : list string;
  pivotTimestamps : bool
}.

(** [a || b] on an optional string: the empty string is falsy too. *)
Definition or_else (a : option string) (b : string) : string :=
  match a with
  | Some s => if String.eqb s "" then b else s
  | None => b
  end.

(** [s.slice(0, -1)]. *)
Fixpoint drop_last (s : string) : string :=
  match s with
  | EmptyString => EmptyString
  | String c s' =>
      match s' with
      | EmptyString => EmptyString
      | _ => String c (drop_last s')
      end
  end.

(** [[a, b].sort()], strings compared unit by unit. *)
Definition sort2 (a b : string) : list string :=
  if String.ltb b a then [b; a] else [a; b].

(** [l.join(sep)]. *)
Fixpoint join (sep : string) (l : list string) : string :=
  match l with
  | [] => ""
  | [a] => a
  | a :: rest => a +:+ sep +:+ join sep rest
  end.

Section Relations.
Context (H : Host) (registry : gmap string ModelClass).

(** [Model.prototype.morphTo] and [Model.prototype.morphMany]. *)
Definition morphTo (type id : string) : Relation :=
  mkRelation MorphTo RBase id "id" type id.

Definition morphMany (cls : ModelClass) (related_ type id : string)
  : MorphManyRelation :=
  mkMorphMany (mkRelation MorphMany (RName related_) id "id" type id) (name cls).

(** [MorphMany.getResults]. *)
Definition morphMany_getResults (cls : ModelClass) (rel : MorphManyRelation)
    (parent : Model) : IO (Result (list Model)) :=
  let r := mm_relation rel in
  match newQuery registry r with
  | Ok (relatedClass, qb) =>
      get H registry relatedClass
        (qb_where (PEq (morphId r) (getAttribute H cls (localKey r) parent))
           (qb_where (PEq (morphType r) (VStr (morphClass rel))) qb))
  | Throw msg => ret (Throw msg)
  end.

(** [Model.prototype.belongsToMany], with the constructor of
    [BelongsToMany]: what is not given is derived from the two tables. *)
Definition belongsToMany (cls : ModelClass) (related_ : string)
    (pivot fp rp pk rk : option string) : Result BelongsToManyRelation :=
  let parentKey_ := default "id" pk in
  let relatedKey_ := default "id" rk in
  let rel := mkRelation BelongsToMany (RName related_) relatedKey_ parentKey_ "" "" in
  match getRelatedClass registry rel with
  | Throw msg => Throw msg
  | Ok relatedClass =>
      Ok (mkBelongsToMany rel
            (or_else pivot
               (join "_" (sort2 (getTableName cls) (getTableName relatedClass))))
            (or_else fp (drop_last (getTableName cls) +:+ "_id"))
            (or_else rp (drop_last (getTableName relatedClass) +:+ "_id"))
            (or_else (Some parentKey_) (getPrimaryKey cls))
            (or_else (Some relatedKey_) (getPrimaryKey relatedClass))
            [] false)
  end.

(** [BelongsToMany.withPivot] and [BelongsToMany.withTimestamps]. *)
Definition withPivot (columns : list string) (rel : BelongsToManyRelation)
  : BelongsToManyRelation :=
  mkBelongsToMany (btm_relation rel) (pivotTable rel) (parentPivotKey rel)
    (relatedPivotKey rel) (parentKey rel) (relatedKey rel)
    (pivotColumns rel ++ columns) (pivotTimestamps rel).

Definition withTimestamps (rel : BelongsToManyRelation) : BelongsToManyRelation :=
  mkBelongsToMany (btm_relation rel) (pivotTable rel) (parentPivotKey rel)
    (relatedPivotKey rel) (parentKey rel) (relatedKey rel)
    (pivotColumns rel ++ ["created_at"; "updated_at"]) true.

(** [BelongsToMany.attach]: in the row, the given attributes win over the
    two keys. *)
Definition attach (cls : ModelClass) (rel : BelongsToManyRelation)
    (parent : Model) (id : jsval) (attributes_ : gmap string jsval) : IO unit :=
  let pivotData :=
    attributes_ ∪ <[relatedPivotKey rel := id]>
                    {[ parentPivotKey rel :=
                         getAttribute H cls (parentKey rel) parent ]} in
  do pivotData <-
    (if pivotTimestamps rel
     then do t <- now;
          ret (<["updated_at" := VDate t]> (<["created_at" := VDate t]> pivotData))
     else ret pivotData);
  knex_insert (mkKnex (pivotTable rel) []) pivotData.

(** [BelongsToMany.detach]: without an id, every row of the parent goes. *)
Definition detach (cls : ModelClass) (rel : BelongsToManyRelation)
    (parent : Model) (id : jsval) : IO Z :=
  let q := k_where (PEq (parentPivotKey rel)
                      (getAttribute H cls (parentKey rel) parent))
             (mkKnex (pivotTable rel) []) in
  knex_del (if bool_decide (id = VUndefined) then q
            else k_where (PEq (relatedPivotKey rel) id) q).

Fixpoint attach_each (cls : ModelClass) (rel : BelongsToManyRelation)
    (parent : Model) (ids : list jsval) : IO unit :=
  match ids with
  | [] => ret tt
  | id :: ids' => attach cls rel parent id ∅ ;; attach_each cls rel parent ids'
  end.

(** [BelongsToMany.sync]. *)
Definition sync (cls : ModelClass) (rel : BelongsToManyRelation)
    (parent : Model) (ids : list jsval) : IO unit :=
  detach cls rel parent VUndefined ;; attach_each cls rel parent ids.

End Relations.

(** * Custom casts ([CustomCasts.js])

    Casts convert between what is stored and what the application sees.
    Money is a matter of binary64 arithmetic, so numbers are primitive
    floats here, and values may be arrays and objects. *)

#[warnings="-register-all"]
Inductive cval : Type :=
| CUndefined
| CNull
| CBool (b : bool)
| CNum (f : float)
| CStr (s : string)
| CDate (t : float)
| CArr (items : list cval)
| CObj (fields : list (string * cval)).

Definition float_of_Z (z : Z) : float :=
  if z <? 0 then PrimFloat.opp (PrimFloat.of_uint63 (Uint63.of_Z (- z)))
  else PrimFloat.of_uint63 (Uint63.of_Z z).

(** [Math.round]: the nearest integer, halves going up.  A finite float is
    [±m·2^e]; when [e < 0] the answer is [⌊(2·(±m) + 2^-e) / 2^(1-e)⌋], a
    sum and a shift to the right. *)
Definition Math_round (x : float) : float :=
  match Prim2SF x with
  | S754_finite s m e =>
      if 0 <=? e then x
      else
        let num := if s then Z.neg m else Z.pos m in
        let z := Z.shiftr (2 * num + Z.shiftl 1 (- e)) (1 - e) in
        if (z =? 0) && s then PrimFloat.opp PrimFloat.zero else float_of_Z z
  | _ => x
  end.

Definition c_truthy (v : cval) : bool :=
  match v with
  | CUndefined | CNull => false
  | CBool b => b
  | CNum f => negb (PrimFloat.eqb f PrimFloat.zero) && negb (PrimFloat.is_nan f)
  | CStr s => negb (String.eqb s "")
  | CDate _ | CArr _ | CObj _ => true
  end.

(** [a == b] between two values of the same primitive type, and between
    [null] and [undefined]. *)
Definition loose_eq (a b : cval) : bool :=
  match a, b with
  | (CUndefined | CNull), (CUndefined | CNull) => true
  | CBool x, CBool y => Bool.eqb x y
  | CNum x, CNum y => PrimFloat.eqb x y
  | CStr x, CStr y => String.eqb x y
  | _, _ => false
  end.

(** Built-ins that the casts call, for the arguments that are not numbers. *)
Record CastHost : Type := mkCastHost {
  parseFloat_text : cval → float;
  toNumber_text : cval → float;
  stringify : cval → cval;                 (* [JSON.stringify] *)
  parse : cval → option cval;              (* [JSON.parse]; [None]: it throws *)
  base64_encode : cval → cval;
  base64_decode : cval → option cval;
  new_Date : cval → cval;
  toISOString : cval → Result cval
}.

Section CastDefinitions.
Context (h : CastHost).

Definition parseFloat (v : cval) : float :=
  match v with
  | CNum f => f
  | CUndefined | CNull | CBool _ => PrimFloat.nan
  | _ => parseFloat_text h v
  end.

Definition toNumber (v : cval) : float :=
  match v with
  | CNum f => f
  | CDate t => t
  | CUndefined => PrimFloat.nan
  | CNull | CBool false => PrimFloat.zero
  | CBool true => PrimFloat.one
  | _ => toNumber_text h v
  end.

Definition MoneyCast_get (value : cval) : cval :=
  if c_truthy value
  then CNum (PrimFloat.div (parseFloat value) (float_of_Z 100))
  else CNull.

Definition MoneyCast_set (value : cval) : cval :=
  if c_truthy value
  then CNum (Math_round (PrimFloat.mul (toNumber value) (float_of_Z 100)))
  else CNull.

Definition EncryptedCast_get (value : cval) : cval :=
  if negb (c_truthy value) then CNull
  else default value (base64_decode h value).

Definition EncryptedCast_set (value : cval) : cval :=
  if negb (c_truthy value) then CNull else base64_encode h value.

Definition JsonCast_get (value : cval) : Result cval :=
  if negb (c_truthy value) then Ok CNull
  else match value with
       | CStr _ => match parse h value with
                   | Some x => Ok x
                   | None => Throw "SyntaxError"
                   end
       | _ => Ok value
       end.

Definition JsonCast_set (value : cval) : cval :=
  match value with
  | CNull | CUndefined => CNull
  | CStr _ => value
  | _ => stringify h value
  end.

Definition ArrayCast_get (value : cval) : Result cval :=
  if negb (c_truthy value) then Ok CNull
  else match value with
       | CArr _ => Ok value
       | _ => match parse h value with
              | Some x => Ok x
              | None => Throw "SyntaxError"
              end
       end.

Definition ArrayCast_set (value : cval) : cval :=
  if negb (c_truthy value) then CNull
  else match value with
       | CArr _ => stringify h value
       | _ => value
       end.

Definition DateCast_get (value : cval) : cval :=
  if negb (c_truthy value) then CNull else new_Date h value.

Definition DateCast_set (value : cval) : Result cval :=
  if negb (c_truthy value) then Ok CNull
  else match value with
       | CDate _ => toISOString h value
       | _ => toISOString h (new_Date h value)
       end.

(** The amount of [n] cents, as the literal [n/100] denotes it. *)
Definition cents (n : Z) : float :=
  PrimFloat.div (float_of_Z n) (float_of_Z 100).

End CastDefinitions.

(** * Collections ([Collection.js])

    What [get] answers with is a [Collection], an array with more methods.
    The methods below do not look inside the items, or only read a property
    of them; they are defined over any type of items. *)

Module Collection.

Section Arrays.
Context {A : Type}.

(** The index that [slice] makes of an argument: counted from the end when
    negative, clamped to the array. *)
Definition relative_index (len i : Z) : Z :=
  if i <? 0 then Z.max (len + i) 0 else Z.min i len.

(** [Array.prototype.slice(start, end)]; [None]: no [end] given. *)
Definition slice (start : Z) (end_ : option Z) (l : list A) : list A :=
  let len := Z.of_nat (length l) in
  let k := relative_index len start in
  let final := match end_ with
               | Some e => relative_index len e
               | None => len
               end in
  firstn (Z.to_nat (final - k)) (skipn (Z.to_nat k) l).

(** [take(count)] and [skip(count)]. *)
Definition take (count : Z) (l : list A) : list A := slice 0 (Some count) l.
Definition skip (count : Z) (l : list A) : list A := slice count None l.

(** The loop of [chunk(size)]: [fuel] bounds the number of tests of the
    loop condition. *)
Fixpoint chunk_loop (fuel : nat) (size i : Z) (l : list A)
    (chunks : list (list A)) : option (list (list A)) :=
  match fuel with
  | O => None
  | S fuel' =>
      if i <? Z.of_nat (length l)
      then chunk_loop fuel' size (i + size) l
             (chunks ++ [slice i (Some (i + size)) l])
      else Some chunks
  end.

Definition chunk (fuel : nat) (size : Z) (l : list A) : option (list (list A)) :=
  chunk_loop fuel size 0 l [].

(** [flatten()]: an item that is an array is spliced in, one level deep. *)
Definition flatten (l : list (A + list A)) : list A :=
  foldl (λ result item,
           match item with
           | inr items => result ++ items
           | inl x => result ++ [x]
           end) [] l.

(** [Array.prototype.filter], whose callback also sees the index. *)
Fixpoint filter_from (callback : A → nat → bool) (i : nat) (l : list A)
  : list A :=
  match l with
  | [] => []
  | x :: l' =>
      if callback x i then x :: filter_from callback (S i) l'
      else filter_from callback (S i) l'
  end.

Definition filter (callback : A → nat → bool) (l : list A) : list A :=
  filter_from callback 0 l.

Definition reject (callback : A → nat → bool) (l : list A) : list A :=
  filter_from (λ item index, negb (callback item index)) 0 l.

(** The loop of [partition(callback)]. *)
Fixpoint partition_from (callback : A → nat → bool) (i : nat) (l : list A)
    (passed failed : list A) : list A * list A :=
  match l with
  | [] => (passed, failed)
  | x :: l' =>
      if callback x i
      then partition_from callback (S i) l' (passed ++ [x]) failed
      else partition_from callback (S i) l' passed (failed ++ [x])
  end.

Definition partition (callback : A → nat → bool) (l : list A)
  : list A * list A :=
  partition_from callback 0 l [] [].

(** The comparison that a [Set] makes of two items. *)
Context (same : A → A → bool).

(** Reading a property of an item gives a primitive value; [key_of] is the
    property key that such a value becomes when it indexes an object. *)
Context {V : Type} `{EqDecision V}.
Context (field : A → string → V) (key_of : V → string).

(** [unique(key)]: with a key, the first item of each value of the
    property; without one, or with the empty string, which is falsy, the
    distinct items. *)
Definition unique (key : option string) (l : list A) : list A :=
  let distinct :=
    foldl (λ (kept : list A) item,
             if existsb (same item) kept then kept else kept ++ [item])
          [] l in
  match key with
  | Some key =>
      if String.eqb key "" then distinct
      else (foldl (λ (st : list V * list A) item,
                     let value := field item key in
                     if bool_decide (value ∈ st.1) then st
                     else (st.1 ++ [value], st.2 ++ [item]))
                  ([], []) l).2
  | None => distinct
  end.

(** The names that an object literal answers to without having them: it
    inherits them from [Object.prototype]. *)
Definition inherited : list string :=
  ["constructor"; "__defineGetter__"; "__defineSetter__"; "hasOwnProperty";
   "__lookupGetter__"; "__lookupSetter__"; "isPrototypeOf";
   "propertyIsEnumerable"; "toString"; "valueOf"; "__proto__";
   "toLocaleString"].

(** [groupBy(key)]: [groups[groupKey]] is looked up in an object literal,
    so under an inherited name it finds a value that is truthy and has no
    [push]. *)
Definition groupBy (key : string) (l : list A)
  : Result (gmap string (list A)) :=
  foldl (λ (acc : Result (gmap string (list A))) item,
           match acc with
           | Throw msg => Throw msg
           | Ok groups =>
               let groupKey := key_of (field item key) in
               match groups !! groupKey with
               | Some group => Ok (<[groupKey := group ++ [item]]> groups)
               | None =>
                   if bool_decide (groupKey ∈ inherited)
                   then Throw "groups[groupKey].push is not a function"
                   else Ok (<[groupKey := [item]]> groups)
               end
           end)
        (Ok ∅) l.

End Arrays.

End Collection.

(** * The vocabulary of the statements *)

(** Worlds that differ only by lifecycle events added to the log. *)
Definition hooks_only (w w' : World) : Prop :=
  db w' = db w ∧ clock w' = clock w ∧ entropy w' = entropy w ∧
  ∃ evs, trace w' = trace w ++ evs ∧ Forall (λ e, is_query e = false) evs.

(** A handler that always answers [false]. *)
Definition vetoes (h : Handler) : Prop := ∀ m, (h m).1 = VBool false.

(** On a persisted entity, every attribute outside the dirty set still has
    the value recorded in [original]. *)
Definition tracked (m : Model) : Prop :=
  exists_ m = true →
  _deferred m = None ∧ ∀ k, k ∉ _dirty m → attributes m !! k = original m !! k.

(** The two ways [save] can end once it has decided to talk to the engine. *)
Definition aborted (m : Model) (w : World) (r : bool * Model * World) : Prop :=
  r.1.1 = false ∧ hooks_only w r.2 ∧ exists_ r.1.2 = exists_ m ∧
  _deferred r.1.2 = _deferred m ∧ original r.1.2 = original m ∧
  (tracked m → tracked r.1.2).

Definition persisted (m : Model) (r : bool * Model * World) : Prop :=
  ∃ m', r.1 = (true, syncOriginal m') ∧ exists_ m' = true ∧
        _deferred m' = _deferred m.

(** The handlers that [save()] consults before it talks to the engine. *)
Definition pre_events (m : Model) : list string :=
  if exists_ m then (if isDirty m then ["updating"; "saving"] else [])
  else ["creating"; "saving"].

(** An entity that mirrors a stored row: persisted, nothing pending. *)
Definition clean (m : Model) : Prop :=
  exists_ m = true ∧ _dirty m = [] ∧ original m = attributes m ∧
  _deferred m = None.

Definition is_insert (e : Event) : bool :=
  match e with
  | EvInsert _ _ | EvInsertGetId _ _ _ => true
  | _ => false
  end.

(** [w'] is [w] with events added to the log that all pass [P]. *)
Definition logs (P : Event → bool) (w w' : World) : Prop :=
  ∃ evs, trace w' = trace w ++ evs ∧ Forall (λ e, P e = true) evs.

Section Vocabulary.
Context (H : Host) (registry : gmap string ModelClass) (cls : ModelClass).

(** The states an entity goes through when it is only touched through
    [Model.js] and the hydration of [QueryBuilder.js]. *)
Inductive reachable : Model → Prop :=
| reach_new attrs : reachable (new_model attrs)
| reach_hydrate row : reachable (hydrate H cls row)
| reach_initialize m : reachable m → reachable (_initialize H cls m)
| reach_set k v m : reachable m → reachable (setAttribute H cls k v m)
| reach_fill attrs m : reachable m → reachable (fill H cls attrs m)
| reach_relation k r m : reachable m → reachable (with_relation k r m)
| reach_save m w : reachable m → reachable (save H cls m w).1.2
| reach_delete m w : reachable m → reachable (delete_ H cls m w).1.2
| reach_restore m w : reachable m → reachable (restore H cls m w).1.2.

Definition related_key (relatedClass : ModelClass) (m : Model) : string :=
  toPropertyKey H (getAttribute H relatedClass (getPrimaryKey relatedClass) m).

(** What the engine's [update ... where key = k] does to the table. *)
Definition updated_rows (k : jsval) (data : gmap string jsval)
    (rs : list (gmap string jsval)) : list (gmap string jsval) :=
  (λ r, if matches_all [PEq (primaryKey cls) k] r then data ∪ r else r) <$> rs.

(** The entities that [get()] answers with. *)
Definition returned (qb : QB) (w : World) : list Model :=
  match (get H registry cls qb w).1 with
  | Ok ms => ms
  | Throw _ => []
  end.

(** Some entity with key [k] is among them. *)
Definition visible (qb : QB) (w : World) (k : jsval) : Prop :=
  ∃ m, m ∈ returned qb w ∧ getKey cls m = k.

End Vocabulary.

(** A handler that observes: it never answers [false] and assigns
    nothing. *)
Definition passive (h : Handler) : Prop :=
  ∀ m, (h m).1 ≠ VBool false ∧ (h m).2 = [].

(** A class with soft deletes switched on, no global scope, lifecycle
    handlers that only observe, and no cast on the key or on the sentinel. *)
Record plain_soft_deleting (cls : ModelClass) : Prop := {
  psd_soft : softDeletes cls = true;
  psd_scopes : globalScopes cls = [];
  psd_events : ∀ evt, Forall passive (default [] (events cls !! evt));
  psd_cast_sentinel : casts cls !! "deleted_at" = None;
  psd_cast_key : casts cls !! primaryKey cls = None;
  psd_key_1 : primaryKey cls ≠ "deleted_at";
  psd_key_2 : primaryKey cls ≠ "updated_at"
}.
Arguments psd_soft {cls}.
Arguments psd_scopes {cls}.
Arguments psd_events {cls}.
Arguments psd_cast_sentinel {cls}.
Arguments psd_cast_key {cls}.
Arguments psd_key_1 {cls}.
Arguments psd_key_2 {cls}.

(** [get(set(v))] for a number, without the host. *)
Definition money_round_trip (f : float) : cval :=
  if c_truthy (CNum f)
  then let stored := Math_round (PrimFloat.mul f (float_of_Z 100)) in
       if c_truthy (CNum stored)
       then CNum (PrimFloat.div stored (float_of_Z 100))
       else CNull
  else CNull.

Definition whole_cents_ok (n : Z) : bool :=
  loose_eq (money_round_trip (cents n)) (CNum (cents n)).

(** [whole_cents_ok] on [k] amounts in a row, from [n] cents on. *)
Fixpoint whole_cents_from (k : nat) (n : Z) : bool :=
  match k with
  | O => true
  | S k' => whole_cents_ok n && whole_cents_from k' (n + 1)
  end.

(** A class without global scopes whose lifecycle handlers only observe. *)
Record quiet (cls : ModelClass) : Prop := {
  quiet_scopes : globalScopes cls = [];
  quiet_events : ∀ evt, Forall passive (default [] (events cls !! evt))
}.
Arguments quiet_scopes {cls}.
Arguments quiet_events {cls}.

(** The row that [attach] sends to the pivot table at time [t], for an owner
    whose key is [parentValue]. *)
Definition pivot_row (rel : BelongsToManyRelation) (parentValue : jsval) (t : Z)
    (id : jsval) : gmap string jsval :=
  let pivotData := <[relatedPivotKey rel := id]>
                     {[ parentPivotKey rel := parentValue ]} in
  if pivotTimestamps rel
  then <["updated_at" := VDate t]> (<["created_at" := VDate t]> pivotData)
  else pivotData.

(** * The models and tables the examples run on *)

(** A host to run the examples on. *)
Definition sample_host : Host :=
  mkHost (λ v, match v with VNum n => VStr (pretty n) | _ => VStr "null" end)
         (λ _, None)
         (λ t, "date:" +:+ pretty t)
         (λ _, None)
         (λ t, "date:" +:+ pretty t)
         (λ n, "uuid-" +:+ pretty n).

Definition row_of (l : list (string * jsval)) : gmap string jsval :=
  list_to_map l.

Definition Item : ModelClass :=
  mkClass "Item" "items" "id" "int" true false false [] ["*"] ∅ ∅ [] ∅.

(** [items() { return this.hasMany('Item', 'order_id') }] and
    [customer() { return this.belongsTo('Customer', 'customer_id') }]. *)
Definition Order : ModelClass :=
  mkClass "Order" "orders" "id" "int" true false false [] ["*"] ∅ ∅ []
    {[ "items" := λ _, mkRelation HasMany (RName "Item") "order_id" "id" "" "";
       "customer" :=
         λ _, mkRelation BelongsTo (RName "Customer") "customer_id" "id" "" "" ]}.

Definition Customer : ModelClass :=
  mkClass "Customer" "customers" "id" "int" true false false [] ["*"] ∅ ∅ [] ∅.

Definition shop_registry : gmap string ModelClass :=
  {[ "Item" := Item; "Order" := Order; "Customer" := Customer ]}.

Definition shop : World :=
  mkWorld
    {[ "orders" := [row_of [("id", VNum 1)]; row_of [("id", VNum 2)]];
       "items" := [row_of [("id", VNum 10); ("order_id", VNum 1)];
                   row_of [("id", VNum 11); ("order_id", VNum 1)];
                   row_of [("id", VNum 12); ("order_id", VNum 2)]];
       "customers" := [row_of [("id", VNum 7)]] ]}
    1000 0 [].

(** How many entities an owner holds under a plural relation, if loaded. *)
Definition loaded_count (relation : string) (m : Model) : option nat :=
  match relations m !! relation with
  | Some (RMany l) => Some (length l)
  | _ => None
  end.

Definition loaded_counts (relation : string) (r : Result (list Model))
  : list (option nat) :=
  match r with
  | Ok ms => loaded_count relation <$> ms
  | Throw _ => []
  end.

(** A class whose [creating] handler returns nothing, as handlers usually
    do, and one whose [saving] handler answers [false]. *)
Definition Logged : ModelClass :=
  mkClass "Logged" "logs" "id" "int" true false false [] ["*"] ∅
    {[ "creating" := [λ _, (VUndefined, [])] ]} [] ∅.

Definition Frozen : ModelClass :=
  mkClass "Frozen" "frozen" "id" "int" true false false [] ["*"] ∅
    {[ "saving" := [λ _, (VBool false, [])];
       "deleting" := [λ _, (VBool false, [])] ]} [] ∅.

Definition draft : Model := new_model (row_of [("total", VNum 5)]).

(** [commentable() { return this.morphTo('commentable_type', 'commentable_id') }]. *)
Definition Comment : ModelClass :=
  mkClass "Comment" "comments" "id" "int" true false false [] ["*"] ∅ ∅ []
    {[ "commentable" :=
         λ _, mkRelation MorphTo RBase "commentable_id" "id"
                "commentable_type" "commentable_id" ]}.

Definition commentable : Relation :=
  mkRelation MorphTo RBase "commentable_id" "id"
    "commentable_type" "commentable_id".

Definition Ticket : ModelClass :=
  mkClass "Ticket" "tickets" "uuid" "int" true false false [] ["*"] ∅ ∅ [] ∅.

Definition desk : World :=
  mkWorld {[ "tickets" := [row_of [("uuid", VNum 7); ("id", VNum 3)];
                           row_of [("uuid", VNum 3); ("id", VNum 7)]] ]}
          1000 0 [].

(** Accounts are soft-deleted; a [deleting] handler looks on. *)
Definition Account : ModelClass :=
  mkClass "Account" "accounts" "id" "int" true true true [] ["*"] ∅
    {[ "deleting" := [λ _, (VUndefined, [])] ]} [] ∅.

Definition bank : World :=
  mkWorld {[ "accounts" := [row_of [("id", VNum 1); ("owner", VStr "ada")];
                            row_of [("id", VNum 2); ("owner", VStr "bob")]] ]}
          1000 0 [].

(** The keys that come back at each step of the scenario. *)
Definition keys_returned (cls : ModelClass) (qb : QB) (w : World) : list jsval :=
  getKey cls <$> returned sample_host shop_registry cls qb w.

Definition quote : string := String (Ascii.ascii_of_nat 34) EmptyString.

Definition a_is_1_text : string := "{" +:+ quote +:+ "a" +:+ quote +:+ ":1}".

Definition a_is_1 : cval := CObj [("a", CNum PrimFloat.one)].

(** A host that knows the one JSON document of the examples. *)
Definition sample_cast_host : CastHost :=
  mkCastHost
    (λ _, PrimFloat.nan) (λ _, PrimFloat.nan)
    (λ v, match v with
          | CObj [(k, CNum f)] =>
              if String.eqb k "a" && PrimFloat.eqb f PrimFloat.one
              then CStr a_is_1_text else CUndefined
          | _ => CUndefined
          end)
    (λ v, match v with
          | CStr s => if String.eqb s a_is_1_text then Some a_is_1 else None
          | _ => None
          end)
    (λ v, v) Some (λ v, v) Ok.

(** Posts take comments, whose owner may be of any registered type; only
    the title of a post can be mass-assigned. *)
Definition Post : ModelClass :=
  mkClass "Post" "posts" "id" "int" true false false ["title"] ["*"] ∅ ∅ [] ∅.

Definition blog_registry : gmap string ModelClass :=
  {[ "Post" := Post; "Comment" := Comment ]}.

Definition blog : World :=
  mkWorld
    {[ "posts" := [row_of [("id", VNum 1); ("title", VStr "hello")]];
       "comments" := [row_of [("id", VNum 3); ("commentable_type", VStr "Post");
                              ("commentable_id", VNum 1)];
                      row_of [("id", VNum 4); ("commentable_type", VStr "Video");
                              ("commentable_id", VNum 1)]] ]}
    1000 0 [].

(** Orders that name their customer. *)
Definition market : World :=
  mkWorld
    {[ "orders" := [row_of [("id", VNum 1); ("customer_id", VNum 7)];
                    row_of [("id", VNum 2); ("customer_id", VNum 8)]];
       "customers" := [row_of [("id", VNum 7)]] ]}
    1000 0 [].

(** The pivot between orders and items, under the names that
    [belongsToMany] derives from the two tables. *)
Definition order_items : BelongsToManyRelation :=
  mkBelongsToMany (mkRelation BelongsToMany (RName "Item") "id" "id" "" "")
    "items_orders" "order_id" "item_id" "id" "id" [] false.

Definition stock : World :=
  mkWorld
    {[ "items_orders" := [row_of [("order_id", VNum 1); ("item_id", VNum 10)];
                          row_of [("order_id", VNum 2); ("item_id", VNum 12)]] ]}
    1000 0 [].

(** A host that knows the JSON text of the empty array. *)
Definition array_cast_host : CastHost :=
  mkCastHost
    (λ _, PrimFloat.nan) (λ _, PrimFloat.nan)
    (λ v, match v with CArr [] => CStr "[]" | _ => CUndefined end)
    (λ v, match v with
          | CStr s => if String.eqb s "[]" then Some (CArr []) else None
          | _ => None
          end)
    (λ v, v) Some (λ v, v) Ok.

(** Items of a collection in the examples: a name and a group. *)
Definition member_field (item : string * Z) (key : string) : Z :=
  if String.eqb key "group" then item.2 else 0.

(** * Properties *)

(** ** What the setter and the handlers leave alone *)

Section EntityFacts.
Context (H : Host) (cls : ModelClass).

Lemma setAttribute_exists k v (m : Model) :
  exists_ (setAttribute H cls k v m) = exists_ m.
Proof. unfold setAttribute. by case_match. Qed.

Lemma setAttribute_deferred k v (m : Model) :
  _deferred (setAttribute H cls k v m) = _deferred m.
Proof. unfold setAttribute. by case_match. Qed.

Lemma setAttribute_original k v (m : Model) :
  original (setAttribute H cls k v m) = original m.
Proof. unfold setAttribute. by case_match. Qed.

Lemma setAttribute_relations k v (m : Model) :
  relations (setAttribute H cls k v m) = relations m.
Proof. unfold setAttribute. by case_match. Qed.

Lemma set_all_exists kvs (m : Model) :
  exists_ (set_all H cls kvs m) = exists_ m.
Proof.
  revert m. induction kvs as [|kv kvs IH]; intros m; [done|].
  unfold set_all in *. simpl. by rewrite IH, setAttribute_exists.
Qed.

Lemma set_all_deferred kvs (m : Model) :
  _deferred (set_all H cls kvs m) = _deferred m.
Proof.
  revert m. induction kvs as [|kv kvs IH]; intros m; [done|].
  unfold set_all in *. simpl. by rewrite IH, setAttribute_deferred.
Qed.

Lemma set_all_original kvs (m : Model) :
  original (set_all H cls kvs m) = original m.
Proof.
  revert m. induction kvs as [|kv kvs IH]; intros m; [done|].
  unfold set_all in *. simpl. by rewrite IH, setAttribute_original.
Qed.

Lemma initialize_deferred (m : Model) : _deferred (_initialize H cls m) = None.
Proof. unfold _initialize. by case_match. Qed.

Lemma initialize_exists (m : Model) :
  exists_ (_initialize H cls m) = exists_ m.
Proof.
  unfold _initialize. case_match; [|done]. simpl. apply set_all_exists.
Qed.

Lemma initialize_idem (m : Model) : _deferred m = None → _initialize H cls m = m.
Proof. unfold _initialize. by intros ->. Qed.

Lemma hooks_only_refl w : hooks_only w w.
Proof.
  repeat split. exists []. split; [by rewrite app_nil_r | constructor].
Qed.

Lemma hooks_only_trans w1 w2 w3 :
  hooks_only w1 w2 → hooks_only w2 w3 → hooks_only w1 w3.
Proof.
  intros (Hd & Hc & He & evs & Ht & Hq) (Hd' & Hc' & He' & evs' & Ht' & Hq').
  repeat split; try congruence.
  exists (evs ++ evs'). split.
  - by rewrite Ht', Ht, app_assoc.
  - by apply Forall_app.
Qed.

Lemma hooks_only_log evt w : hooks_only w (log (EvHook evt) w).
Proof.
  repeat split. exists [EvHook evt]. split; [done|]. by repeat constructor.
Qed.

Lemma run_handlers_spec evt hs (m : Model) w :
  let r := run_handlers H cls evt hs m w in
  hooks_only w r.2 ∧ exists_ r.1.2 = exists_ m ∧
  _deferred r.1.2 = _deferred m ∧ original r.1.2 = original m.
Proof.
  revert m w. induction hs as [|h hs IH]; intros m w; simpl.
  - split; [apply hooks_only_refl | done].
  - unfold bind, emit. destruct (h m) as [r writes] eqn:Hh.
    case_bool_decide.
    + simpl. split; [apply hooks_only_log|].
      by rewrite set_all_exists, set_all_deferred, set_all_original.
    + destruct (IH (set_all H cls writes m) (log (EvHook evt) w))
        as (Hw & He & Hd & Ho).
      split; [eapply hooks_only_trans; [apply hooks_only_log | exact Hw]|].
      by rewrite He, Hd, Ho, set_all_exists, set_all_deferred, set_all_original.
Qed.

Lemma fireEvent_spec evt (m : Model) w :
  let r := fireEvent H cls evt m w in
  hooks_only w r.2 ∧ exists_ r.1.2 = exists_ m ∧
  _deferred r.1.2 = _deferred m ∧ original r.1.2 = original m.
Proof. apply run_handlers_spec. Qed.

Lemma run_handlers_veto evt hs h (m : Model) w :
  h ∈ hs → vetoes h → (run_handlers H cls evt hs m w).1.1 = false.
Proof.
  revert m w. induction hs as [|h' hs IH]; intros m w Hin Hv.
  - by apply elem_of_nil in Hin.
  - simpl. unfold bind, emit. destruct (h' m) as [r writes] eqn:Hh.
    case_bool_decide as Hr; [done|].
    apply elem_of_cons in Hin as [->|Hin]; [|by apply IH].
    specialize (Hv m). rewrite Hh in Hv. simpl in Hv. congruence.
Qed.

End EntityFacts.

(** ** The dirty set accounts for every difference with [original] *)

Section Tracking.
Context (H : Host) (cls : ModelClass).

Lemma elem_of_set_add k k' d : k' ∈ set_add k d ↔ k' = k ∨ k' ∈ d.
Proof.
  unfold set_add. case_bool_decide as Hk.
  - split; [by right | by intros [->|?]].
  - rewrite elem_of_app, list_elem_of_singleton. tauto.
Qed.

Lemma setAttribute_tracked k v (m : Model) :
  tracked m → tracked (setAttribute H cls k v m).
Proof.
  intros Ht He. rewrite setAttribute_exists in He.
  destruct (Ht He) as [Hd Hk]. rewrite setAttribute_deferred. split; [done|].
  unfold setAttribute. rewrite Hd, He. simpl.
  intros k' Hk'. rewrite elem_of_set_add in Hk'.
  rewrite lookup_insert_ne by (intros ->; tauto).
  apply Hk. tauto.
Qed.

Lemma set_all_tracked kvs (m : Model) :
  tracked m → tracked (set_all H cls kvs m).
Proof.
  revert m. induction kvs as [|kv kvs IH]; intros m Ht; [done|].
  unfold set_all in *. simpl. by apply IH, setAttribute_tracked.
Qed.

Lemma syncOriginal_tracked (m : Model) :
  _deferred m = None → tracked (syncOriginal m).
Proof. by intros Hd _. Qed.

Lemma initialize_tracked (m : Model) : tracked m → tracked (_initialize H cls m).
Proof.
  unfold _initialize. destruct (_deferred m) eqn:Hd; [|done]. by intros _ _.
Qed.

Lemma run_handlers_tracked evt hs (m : Model) w :
  tracked m → tracked (run_handlers H cls evt hs m w).1.2.
Proof.
  revert m w. induction hs as [|h hs IH]; intros m w Ht; [done|].
  simpl. unfold bind, emit. destruct (h m) as [r writes].
  case_bool_decide; [by apply set_all_tracked|]. by apply IH, set_all_tracked.
Qed.

Ltac fire evt m w ok m' w' Hs Ht :=
  pose proof (fireEvent_spec H cls evt m w) as Hs;
  pose proof (run_handlers_tracked evt (default [] (events cls !! evt)) m w) as Ht;
  fold (fireEvent H cls evt m w) in Ht;
  destruct (fireEvent H cls evt m w) as [[ok m'] w'];
  simpl in Hs, Ht; destruct Hs as (Hs & ? & ? & ?).

Lemma stamp_spec keys (m : Model) w :
  (stamp H cls keys m w).2 = w ∧
  exists_ (stamp H cls keys m w).1 = exists_ m ∧
  _deferred (stamp H cls keys m w).1 = _deferred m.
Proof.
  unfold stamp. destruct (timestamps cls); [|done].
  unfold bind, now, ret. simpl.
  by rewrite set_all_exists, set_all_deferred.
Qed.

Lemma save_insert_cases (m : Model) w :
  aborted m w (save_insert H cls m w) ∨ persisted m (save_insert H cls m w).
Proof.
  unfold save_insert, bind.
  fire "creating" m w ok1 m1 w1 S1 T1.
  destruct ok1; simpl; cycle 1.
  { left. unfold aborted, ret. simpl. by split_and!. }
  fire "saving" m1 w1 ok2 m2 w2 S2 T2.
  destruct ok2; simpl; cycle 1.
  { left. unfold aborted, ret. simpl.
    split_and!; try congruence; eauto using hooks_only_trans. }
  right.
  destruct (stamp_spec ["created_at"; "updated_at"] m2 w2) as (_ & Hse & Hsd).
  destruct (stamp H cls ["created_at"; "updated_at"] m2 w2) as [m3 w3].
  simpl in Hse, Hsd.
  set (step4 := if negb (incrementing cls) && bool_decide (keyType cls = "string")
       && negb (truthy (getKey cls m3))
     then _ else _).
  assert (_deferred (step4 w3).1 = _deferred m3) as Hd4.
  { subst step4. case_match; [|done]. unfold bind, random_uuid, ret. simpl.
    apply setAttribute_deferred. }
  destruct (step4 w3) as [m4 w4]. clear step4. simpl in Hd4.
  set (step5 := if incrementing cls then _ else _).
  assert (_deferred (step5 w4).1 = _deferred m4) as Hd5.
  { subst step5. case_match; [|done].
    unfold bind, insertGetId, knex_insert_returning, ret. simpl.
    apply setAttribute_deferred. }
  destruct (step5 w4) as [m5 w5]. clear step5. simpl in Hd5.
  set (m6 := with_recently true (with_exists true m5)).
  pose proof (fireEvent_spec H cls "created" m6 w5) as S7.
  destruct (fireEvent H cls "created" m6 w5) as [[ok7 m7] w7].
  simpl in S7. destruct S7 as (_ & He7 & Hd7 & _).
  pose proof (fireEvent_spec H cls "saved" m7 w7) as S8.
  destruct (fireEvent H cls "saved" m7 w7) as [[ok8 m8] w8].
  simpl in S8. destruct S8 as (_ & He8 & Hd8 & _).
  exists m8. unfold ret. simpl. split; [done|]. split; [congruence|].
  rewrite Hd8, Hd7. subst m6. simpl. congruence.
Qed.

Lemma save_update_cases (m : Model) w :
  exists_ m = true →
  aborted m w (save_update H cls m w) ∨ persisted m (save_update H cls m w).
Proof.
  intros Hex. unfold save_update, bind.
  fire "updating" m w ok1 m1 w1 S1 T1.
  destruct ok1; simpl; cycle 1.
  { left. unfold aborted, ret. simpl. by split_and!. }
  fire "saving" m1 w1 ok2 m2 w2 S2 T2.
  destruct ok2; simpl; cycle 1.
  { left. unfold aborted, ret. simpl.
    split_and!; try congruence; eauto using hooks_only_trans. }
  right.
  destruct (stamp_spec ["updated_at"] m2 w2) as (_ & Hse & Hsd).
  destruct (stamp H cls ["updated_at"] m2 w2) as [m3 w3].
  simpl in Hse, Hsd.
  match goal with |- context [(if ?c then ?a else ?b) w3] =>
    destruct ((if c then a else b) w3) as [n w4] end.
  pose proof (fireEvent_spec H cls "updated" m3 w4) as S7.
  destruct (fireEvent H cls "updated" m3 w4) as [[ok7 m7] w7].
  simpl in S7. destruct S7 as (_ & He7 & Hd7 & _).
  pose proof (fireEvent_spec H cls "saved" m7 w7) as S8.
  destruct (fireEvent H cls "saved" m7 w7) as [[ok8 m8] w8].
  simpl in S8. destruct S8 as (_ & He8 & Hd8 & _).
  exists m8. unfold ret. simpl. split; [done|]. split; congruence.
Qed.

(** [save] on an entity that exists and is clean does nothing. *)
Lemma save_clean (m : Model) w :
  exists_ m = true → _dirty m = [] →
  save H cls m w = (true, _initialize H cls m, w).
Proof.
  intros He Hd. unfold save.
  rewrite initialize_exists, He. simpl.
  assert (isDirty (_initialize H cls m) = false) as ->; [|done].
  unfold isDirty, _initialize. destruct (_deferred m); simpl; [done|].
  by rewrite Hd.
Qed.

Lemma save_cases (m : Model) w :
  let m0 := _initialize H cls m in
  aborted m0 w (save H cls m w) ∨ persisted m0 (save H cls m w) ∨
  (save H cls m w = (true, m0, w) ∧ exists_ m0 = true ∧ _dirty m0 = []).
Proof.
  simpl. unfold save.
  destruct (exists_ (_initialize H cls m)) eqn:He; simpl.
  - unfold isDirty. case_bool_decide as Hd; simpl.
    + by right; right.
    + destruct (save_update_cases (_initialize H cls m) w He); tauto.
  - destruct (save_insert_cases (_initialize H cls m) w); tauto.
Qed.

(** After a [save] that answers [true] the entity exists, is clean and has
    nothing deferred. *)
Lemma save_true_clean (m : Model) w m1 w1 :
  save H cls m w = (true, m1, w1) →
  exists_ m1 = true ∧ _dirty m1 = [] ∧ _deferred m1 = None.
Proof.
  intros Hs. destruct (save_cases m w) as [Ha|[Hp|Hn]].
  - destruct Ha as (Hf & _). rewrite Hs in Hf. done.
  - destruct Hp as (m' & Hr & He & Hd). rewrite Hs in Hr. simpl in Hr.
    injection Hr as ->. simpl.
    by rewrite He, Hd, initialize_deferred.
  - destruct Hn as (Hr & He & Hd). rewrite Hs in Hr. injection Hr as -> ->.
    by rewrite initialize_deferred.
Qed.

Lemma save_tracked (m : Model) w :
  tracked m → tracked (save H cls m w).1.2.
Proof.
  intros Ht. apply initialize_tracked in Ht.
  destruct (save_cases m w) as [Ha|[Hp|Hn]].
  - destruct Ha as (_ & _ & _ & _ & _ & Hk). by apply Hk.
  - destruct Hp as (m' & -> & He & Hd). simpl.
    apply syncOriginal_tracked. by rewrite Hd, initialize_deferred.
  - destruct Hn as (-> & _). done.
Qed.

End Tracking.

(** ** Entities as the interface builds them *)

Section Lifecycle.
Context (H : Host) (cls : ModelClass).

Lemma fireEvent_tracked evt (m : Model) w :
  tracked m → tracked (fireEvent H cls evt m w).1.2.
Proof. apply run_handlers_tracked. Qed.

Lemma delete_tracked (m : Model) w :
  tracked m → tracked (delete_ H cls m w).1.2.
Proof.
  intros Ht. unfold delete_. destruct (exists_ m) eqn:He; simpl; [|done].
  unfold bind.
  pose proof (fireEvent_tracked "deleting" m w Ht) as T1.
  destruct (fireEvent H cls "deleting" m w) as [[ok1 m1] w1]. simpl in T1.
  destruct (softDeletes cls).
  - unfold bind, now.
    pose proof (save_tracked H cls _ w1
                  (setAttribute_tracked H cls "deleted_at" (VDate (clock w1)) m1 T1))
      as T2.
    destruct (save H cls _ w1) as [[ok2 m2] w2]. simpl in T2. unfold ret.
    pose proof (fireEvent_tracked "deleted" m2 w2 T2) as T3.
    by destruct (fireEvent H cls "deleted" m2 w2) as [[ok3 m3] w3].
  - unfold bind, ret. simpl.
    assert (tracked (with_exists false m1)) as T2 by done.
    pose proof (fireEvent_tracked "deleted" _ (knex_del
      (query (qb_where (PEq (primaryKey cls) (getKey cls m1)) (query_of cls)))
      w1).2 T2) as T3.
    by destruct (fireEvent H cls "deleted" _ _) as [[ok3 m3] w3].
Qed.

Lemma restore_tracked (m : Model) w :
  tracked m → tracked (restore H cls m w).1.2.
Proof.
  intros Ht. unfold restore. case_match; [done|]. unfold bind.
  pose proof (fireEvent_tracked "restoring" m w Ht) as T1.
  destruct (fireEvent H cls "restoring" m w) as [[ok1 m1] w1]. simpl in T1.
  pose proof (save_tracked H cls _ w1
                (setAttribute_tracked H cls "deleted_at" VNull m1 T1)) as T2.
  destruct (save H cls _ w1) as [[ok2 m2] w2]. simpl in T2.
  pose proof (fireEvent_tracked "restored" m2 w2 T2) as T3.
  by destruct (fireEvent H cls "restored" m2 w2) as [[ok3 m3] w3].
Qed.

Lemma hydrate_clean row :
  exists_ (hydrate H cls row) = true ∧ _dirty (hydrate H cls row) = [] ∧
  original (hydrate H cls row) = attributes (hydrate H cls row) ∧
  _deferred (hydrate H cls row) = None.
Proof.
  unfold hydrate, _initialize, new_model. simpl.
  case_bool_decide; simpl; [done|]. by rewrite set_all_exists.
Qed.

Lemma reachable_tracked (m : Model) : reachable H cls m → tracked m.
Proof.
  induction 1 as [attrs|row|m _ IH|k v m _ IH|attrs m _ IH|k r m _ IH
                  |m w _ IH|m w _ IH|m w _ IH].
  - done.
  - intros _. destruct (hydrate_clean row) as (_ & Hd & Ho & Hf).
    split; [done|]. by rewrite Ho.
  - by apply initialize_tracked.
  - by apply setAttribute_tracked.
  - by apply set_all_tracked.
  - done.
  - by apply save_tracked.
  - by apply delete_tracked.
  - by apply restore_tracked.
Qed.



Lemma fireEvent_veto evt h (m : Model) w :
  h ∈ default [] (events cls !! evt) → vetoes h →
  (fireEvent H cls evt m w).1.1 = false.
Proof. apply run_handlers_veto. Qed.

Lemma pre_hooks_veto e1 h (m : Model) w
    (k : Model → IO (bool * Model)) evt :
  evt ∈ [e1; "saving"] → h ∈ default [] (events cls !! evt) → vetoes h →
  let r := (do '(ok, m) <- fireEvent H cls e1 m;
            if negb ok then ret (false, m) else
            do '(ok, m) <- fireEvent H cls "saving" m;
            if negb ok then ret (false, m) else k m) w in
  r.1.1 = false ∧ hooks_only w r.2.
Proof.
  intros Hevt Hh Hv. simpl. unfold bind.
  pose proof (fireEvent_spec H cls e1 m w) as S1.
  pose proof (fireEvent_veto e1 h m w) as V1.
  destruct (fireEvent H cls e1 m w) as [[ok1 m1] w1].
  simpl in S1, V1. destruct S1 as (S1 & _).
  destruct ok1; simpl; [|done].
  pose proof (fireEvent_spec H cls "saving" m1 w1) as S2.
  pose proof (fireEvent_veto "saving" h m1 w1) as V2.
  destruct (fireEvent H cls "saving" m1 w1) as [[ok2 m2] w2].
  simpl in S2, V2. destruct S2 as (S2 & _).
  destruct ok2; simpl; [|eauto using hooks_only_trans].
  apply elem_of_cons in Hevt as [->|Hevt]; [by specialize (V1 Hh Hv)|].
  apply list_elem_of_singleton in Hevt as ->. by specialize (V2 Hh Hv).
Qed.


(** [delete()] does not look at what its [deleting] handlers answer. *)
Lemma delete_answers_true (m : Model) w :
  exists_ m = true → (delete_ H cls m w).1.1 = true.
Proof.
  intros He. unfold delete_, bind. rewrite He. simpl.
  destruct (fireEvent H cls "deleting" m w) as [[ok1 m1] w1].
  destruct (softDeletes cls).
  - unfold now. destruct (save H cls _ w1) as [[ok2 m2] w2]. unfold ret.
    by destruct (fireEvent H cls "deleted" m2 w2) as [[ok3 m3] w3].
  - unfold knex_del, ret.
    by destruct (fireEvent H cls "deleted" _ _) as [[ok3 m3] w3].
Qed.

End Lifecycle.

(** ** Hydration and the shape of the eager loader's answer *)

Section BuilderFacts.
Context (H : Host) (registry : gmap string ModelClass).

Lemma with_relation_clean k r (m : Model) : clean m → clean (with_relation k r m).
Proof. done. Qed.

Lemma assign_related_clean cls rel relation grouped (m : Model) :
  clean m → clean (assign_related H cls rel relation grouped m).
Proof. unfold assign_related. by case_match. Qed.

(** The loader either hands the owners back as they are, or hands each of
    them back with one more entry in [relations]. *)
Lemma load_path_shape cls constraint relation rest (models : list Model) w ms w' :
  load_path H registry cls constraint relation rest models w = (Ok ms, w') →
  ms = models ∨
  ∃ rel grouped, ms = assign_related H cls rel relation grouped <$> models.
Proof.
  intros Hl.
  assert (∀ (k : IO (Result (list Model))) rel relatedClass q,
    (do rows <- knex_select q;
     do relatedModels <- k;
     match relatedModels with
     | Throw msg => ret (Throw msg)
     | Ok relatedArray =>
         ret (Ok (assign_related H cls rel relation
                    (group_related H relatedClass relatedArray) <$> models))
     end) w = (Ok ms, w') →
    ∃ rel grouped, ms = assign_related H cls rel relation grouped <$> models)
    as Hstep.
  { intros k rel relatedClass q. unfold bind, knex_select.
    destruct (k _) as [[ra|msg] w2]; unfold ret; intros [= <- <-]; eauto. }
  destruct rest as [|next rest']; simpl in Hl;
    (destruct models as [|firstModel models']; [left; by injection Hl|]);
    (destruct (relationMethods cls !! relation) as [method|]; [|done]);
    (case_bool_decide; [left; by injection Hl|]);
    (destruct (getRelatedClass registry (method firstModel)); [|done]);
    right; eapply Hstep; exact Hl.
Qed.

Lemma loadRelation_clean cls qb (models : list Model) relationName w ms w' :
  loadRelation H registry cls qb models relationName w = (Ok ms, w') →
  Forall clean models → Forall clean ms.
Proof.
  unfold loadRelation. destruct (split_dot relationName) as [|relation rest].
  { by intros [= <- <-]. }
  intros Hl Hc. apply load_path_shape in Hl as [->|(rel & grouped & ->)]; [done|].
  rewrite Forall_fmap. eapply Forall_impl; [exact Hc|].
  intros m Hm. by apply assign_related_clean.
Qed.

Lemma load_each_clean cls qb names (models : list Model) w ms w' :
  load_each H registry cls qb names models w = (Ok ms, w') →
  Forall clean models → Forall clean ms.
Proof.
  revert models w. induction names as [|n names IH]; intros models w; simpl.
  { by intros [= <- <-]. }
  unfold bind.
  destruct (loadRelation H registry cls qb models n w) as [[ms1|msg] w1] eqn:Hl.
  - intros Hr Hc. eapply IH; [exact Hr|]. by eapply loadRelation_clean.
  - done.
Qed.

Lemma loadRelations_clean cls qb (models : list Model) w ms w' :
  loadRelations H registry cls qb models w = (Ok ms, w') →
  Forall clean models → Forall clean ms.
Proof.
  unfold loadRelations. destruct models; [by intros [= <- <-]|].
  apply load_each_clean.
Qed.

Lemma hydrate_all_clean cls (rows : list (gmap string jsval)) :
  Forall clean (hydrate H cls <$> rows).
Proof.
  rewrite Forall_fmap. apply Forall_forall. intros row _. apply hydrate_clean.
Qed.

Lemma get_clean cls qb w ms w' :
  get H registry cls qb w = (Ok ms, w') → Forall clean ms.
Proof.
  unfold get, bind, knex_select. destruct (eagerLoad qb).
  - intros [= <- <-]. apply hydrate_all_clean.
  - intros Hl. eapply loadRelations_clean; [exact Hl|]. apply hydrate_all_clean.
Qed.

Lemma first_clean cls qb w m w' :
  first H registry cls qb w = (Ok (Some m), w') → clean m.
Proof.
  unfold first, bind, knex_first.
  destruct (head _) as [row|]; [|done].
  destruct (eagerLoad qb).
  - intros [= <- <-]. apply hydrate_clean.
  - destruct (loadRelations H registry cls qb [hydrate H cls row] _)
      as [[ms|msg] w1] eqn:Hl; unfold ret; [|done].
    intros [= Hh <-].
    eapply loadRelations_clean in Hl; [|by repeat constructor; apply hydrate_clean].
    destruct ms as [|m0 ms]; [done|]. simpl in Hh. injection Hh as <-.
    by inversion Hl.
Qed.

Lemma logs_refl P w : logs P w w.
Proof. exists []. by rewrite app_nil_r. Qed.

Lemma logs_trans P w1 w2 w3 : logs P w1 w2 → logs P w2 w3 → logs P w1 w3.
Proof.
  intros (e1 & H1 & F1) (e2 & H2 & F2). exists (e1 ++ e2).
  split; [by rewrite H2, H1, app_assoc | by apply Forall_app].
Qed.

Lemma hooks_logs w w' : hooks_only w w' → logs (λ e, negb (is_insert e)) w w'.
Proof.
  intros (_ & _ & _ & evs & Ht & Hq). exists evs. split; [done|].
  eapply Forall_impl; [exact Hq|]. by intros [] ?.
Qed.

Lemma save_update_no_insert cls (m : Model) w :
  logs (λ e, negb (is_insert e)) w (save_update H cls m w).2.
Proof.
  unfold save_update, bind.
  pose proof (fireEvent_spec H cls "updating" m w) as (S1 & _).
  destruct (fireEvent H cls "updating" m w) as [[ok1 m1] w1]. simpl in S1.
  apply hooks_logs in S1.
  destruct ok1; simpl; [|done].
  pose proof (fireEvent_spec H cls "saving" m1 w1) as (S2 & _).
  destruct (fireEvent H cls "saving" m1 w1) as [[ok2 m2] w2]. simpl in S2.
  apply hooks_logs in S2.
  destruct ok2; simpl; [|eauto using logs_trans].
  destruct (stamp_spec H cls ["updated_at"] m2 w2) as (Hw & _).
  destruct (stamp H cls ["updated_at"] m2 w2) as [m3 w3]. simpl in Hw. subst w3.
  set (upd := if bool_decide (_ = ∅) then _ else _).
  assert (logs (λ e, negb (is_insert e)) w2 (upd w2).2) as S3.
  { subst upd. case_bool_decide; [apply logs_refl|].
    eexists [_]. split; [done|]. by repeat constructor. }
  destruct (upd w2) as [n w4]. clear upd. simpl in S3.
  pose proof (fireEvent_spec H cls "updated" m3 w4) as (S4 & _).
  destruct (fireEvent H cls "updated" m3 w4) as [[ok4 m4] w5]. simpl in S4.
  apply hooks_logs in S4.
  pose proof (fireEvent_spec H cls "saved" m4 w5) as (S5 & _).
  destruct (fireEvent H cls "saved" m4 w5) as [[ok5 m5] w6]. simpl in S5.
  apply hooks_logs in S5. simpl.
  eauto using logs_trans.
Qed.

Lemma logs_one P e w : P e = true → logs P w (log e w).
Proof. intros He. exists [e]. split; [done|]. by repeat constructor. Qed.

(** The eager loader only ever adds to the log. *)
Lemma load_path_extends rest : ∀ cls constraint relation (models : list Model) w,
  logs (λ _, true) w
    (load_path H registry cls constraint relation rest models w).2.
Proof.
  induction rest as [|next rest' IH]; intros cls constraint relation models w;
    simpl;
    (destruct models as [|firstModel models']; [apply logs_refl|]);
    (destruct (relationMethods cls !! relation) as [method|]; [|apply logs_refl]);
    (case_bool_decide; [apply logs_refl|]);
    (destruct (getRelatedClass registry (method firstModel)) as [rc|];
       [|apply logs_refl]);
    unfold bind, knex_select.
  - unfold ret. simpl. by apply logs_one.
  - match goal with |- context [if String.eqb ?s "" then _ else _] =>
      destruct (String.eqb s "") end.
    + unfold ret. simpl. by apply logs_one.
    + match goal with |- context [load_path H registry rc None next rest' ?ms ?w1] =>
        pose proof (IH rc None next ms w1) as Hn;
        destruct (load_path H registry rc None next rest' ms w1)
          as [[ra|msg] w2] end;
      simpl in Hn; unfold ret; simpl;
      (eapply logs_trans; [|exact Hn]); by apply logs_one.
Qed.

Lemma loadRelation_extends cls qb (models : list Model) relationName w :
  logs (λ _, true) w (loadRelation H registry cls qb models relationName w).2.
Proof.
  unfold loadRelation. destruct (split_dot relationName); [apply logs_refl|].
  apply load_path_extends.
Qed.

Lemma load_each_extends cls qb names : ∀ (models : list Model) w,
  logs (λ _, true) w (load_each H registry cls qb names models w).2.
Proof.
  induction names as [|n names IH]; intros models w; simpl; [apply logs_refl|].
  unfold bind.
  pose proof (loadRelation_extends cls qb models n w) as H1.
  destruct (loadRelation H registry cls qb models n w) as [[ms1|msg] w1];
    simpl in H1; [|done].
  eapply logs_trans; [exact H1|]. apply IH.
Qed.

Lemma loadRelations_extends cls qb (models : list Model) w :
  logs (λ _, true) w (loadRelations H registry cls qb models w).2.
Proof.
  unfold loadRelations. destruct models; [apply logs_refl|].
  apply load_each_extends.
Qed.

Lemma first_trace cls qb w :
  ∃ evs, trace (first H registry cls qb w).2
         = trace w ++ EvSelectFirst (k_table (query qb))
                        (k_wheres (query qb) ++ soft_delete_filter cls qb) :: evs.
Proof.
  unfold first, bind, knex_first.
  destruct (head _) as [row|]; [|by exists []].
  destruct (eagerLoad qb); [by exists []|].
  match goal with |- context [loadRelations ?a ?b ?c ?d ?e ?f] =>
    destruct (loadRelations_extends c d e f) as (evs & Hevs & _);
    destruct (loadRelations a b c d e f) as [r w1] end.
  exists evs. unfold ret. cbn [snd] in *. rewrite Hevs. simpl.
  by rewrite <- app_assoc.
Qed.

(** C9.  An entity materialised from a row exists, has an empty dirty set,
    an [original] identical to its [attributes] and nothing deferred; so do
    all the entities that [get], [first] and [find] answer with.  Assigning
    an attribute afterwards and saving goes through the update branch: no
    insert reaches the engine. *)
Theorem hydrated_entities_exist_and_are_clean cls :
  (∀ row, clean (hydrate H cls row)) ∧
  (∀ qb w ms w', get H registry cls qb w = (Ok ms, w') → Forall clean ms) ∧
  (∀ qb w m w', first H registry cls qb w = (Ok (Some m), w') → clean m) ∧
  (∀ qb id w m w', find H registry cls qb id w = (Ok (Some m), w') → clean m) ∧
  (∀ row k v w,
     let m := setAttribute H cls k v (hydrate H cls row) in
     isDirtyKey k m = true ∧
     save H cls m w = save_update H cls m w ∧
     logs (λ e, negb (is_insert e)) w (save H cls m w).2).
Proof.
  split_and!.
  - apply hydrate_clean.
  - apply get_clean.
  - apply first_clean.
  - intros qb id w m w'. apply first_clean.
  - intros row k v w. simpl.
    destruct (hydrate_clean H cls row) as (He & Hd & _ & Hf).
    assert (_dirty (setAttribute H cls k v (hydrate H cls row)) = [k]) as Hk.
    { unfold setAttribute. by rewrite Hf, He, Hd. }
    assert (save H cls (setAttribute H cls k v (hydrate H cls row)) w
            = save_update H cls (setAttribute H cls k v (hydrate H cls row)) w)
      as Hs.
    { unfold save. rewrite initialize_idem
        by (by rewrite setAttribute_deferred).
      rewrite setAttribute_exists, He. simpl.
      unfold isDirty. by rewrite Hk. }
    split_and!.
    + unfold isDirtyKey. rewrite Hk. apply bool_decide_eq_true, list_elem_of_singleton.
      done.
    + done.
    + rewrite Hs. apply save_update_no_insert.
Qed.

(** C10.  [find(id)] asks for the first row whose column [id] holds the
    given value, whatever the primary key of the class is called;
    [findOrFail] asks the same.  When the primary key has another name, no
    clause that [find] adds compares it with anything. *)
Theorem find_filters_on_literal_id cls qb id w :
  let clauses := k_wheres (query qb) ++ PEq "id" id :: soft_delete_filter cls qb in
  (∃ evs, trace (find H registry cls qb id w).2
          = trace w ++ EvSelectFirst (k_table (query qb)) clauses :: evs) ∧
  (eagerLoad qb = [] →
     find H registry cls qb id w
     = (Ok (hydrate H cls <$>
              head (filter (λ r, matches_all clauses r = true)
                           (rows_of w (k_table (query qb))))),
        log (EvSelectFirst (k_table (query qb)) clauses) w)) ∧
  (findOrFail H registry cls qb id w).2 = (find H registry cls qb id w).2 ∧
  (primaryKey cls ≠ "id" →
     ∀ v, PEq (primaryKey cls) v ∉ PEq "id" id :: soft_delete_filter cls qb).
Proof.
  simpl. split_and!.
  - destruct (first_trace cls (qb_where (PEq "id" id) qb) w) as [evs Hevs].
    exists evs. unfold find. rewrite Hevs. simpl. by rewrite <- app_assoc.
  - intros He. unfold find, first, bind, knex_first, filtered. simpl.
    rewrite He, <- app_assoc. simpl. by destruct (head _).
  - unfold findOrFail, bind.
    destruct (find H registry cls qb id w) as [[[m|]|msg] w1]; done.
  - intros Hpk v Hin. apply elem_of_cons in Hin as [Heq|Hin].
    + injection Heq as Heq _. done.
    + unfold soft_delete_filter in Hin.
      destruct (softDeletes cls), (_onlyTrashed qb), (_includeTrashed qb);
        simpl in Hin; try (by apply elem_of_nil in Hin);
        by apply list_elem_of_singleton in Hin.
Qed.

(** C7, as the code has it.  When the stored type name and the stored id are
    both truthy and the name is not in the registry, resolving the relation
    throws; the message quotes the name; the engine is not asked anything. *)
Theorem morphTo_unregistered_type_throws cls rel (parent : Model) w :
  truthy (getAttribute H cls (morphType rel) parent) = true →
  truthy (getAttribute H cls (morphId rel) parent) = true →
  ModelRegistry.get registry (getAttribute H cls (morphType rel) parent) = None →
  morphTo_getResults H registry cls rel parent w
  = (Throw ("Model '"
            +:+ toPropertyKey H (getAttribute H cls (morphType rel) parent)
            +:+ "' not found in registry. Register it using ModelRegistry.register()"),
     w).
Proof.
  intros Ht Hi Hr. unfold morphTo_getResults. by rewrite Ht, Hi, Hr.
Qed.

(** *** What the grouping of [loadRelation] amounts to *)

Lemma group_related_lookup relatedClass (ms : list Model) key :
  group_related H relatedClass ms !! key
  = match filter (λ m, related_key H relatedClass m = key) ms with
    | [] => None
    | l => Some l
    end.
Proof.
  induction ms as [|x ms IH] using rev_ind; [done|].
  unfold group_related in *. rewrite foldl_app. simpl.
  fold (related_key H relatedClass x).
  rewrite filter_app, filter_cons, filter_nil.
  destruct (decide (related_key H relatedClass x = key)) as [->|Hne].
  - rewrite lookup_insert_eq, IH.
    by destruct (filter _ ms).
  - rewrite lookup_insert_ne by done. rewrite IH, app_nil_r. done.
Qed.

(** A plural relation gives each owner the related entities whose own
    primary key has the property key of the owner's local key. *)
Lemma assign_related_plural cls rel relation relatedClass
    (relatedArray : list Model) (owner : Model) :
  is_singular (kind rel) = false →
  assign_related H cls rel relation
    (group_related H relatedClass relatedArray) owner
  = with_relation relation
      (RMany (filter (λ r, related_key H relatedClass r
                           = toPropertyKey H (getAttribute H cls (localKey rel) owner))
                     relatedArray))
      owner.
Proof.
  intros Hs. unfold assign_related. rewrite Hs.
  assert (bool_decide (kind rel = BelongsTo) = false) as ->.
  { unfold is_singular in Hs. by apply orb_false_elim in Hs as [_ ->]. }
  rewrite group_related_lookup. by destruct (filter _ relatedArray).
Qed.

(** One level of [HasMany], no constraint callback: one [whereIn] on the
    foreign key with the truthy local keys of the owners, then the
    assignment above. *)
Lemma loadRelation_hasMany cls qb (models : list Model) relation method
    firstModel others relatedName relatedClass w :
  split_dot relation = [relation] →
  eagerLoadConstraints qb !! relation = None →
  models = firstModel :: others →
  relationMethods cls !! relation = Some method →
  kind (method firstModel) = HasMany →
  related (method firstModel) = RName relatedName →
  registry !! relatedName = Some relatedClass →
  let rel := method firstModel in
  let localValues :=
    filter (λ v, truthy v = true)
           ((λ m, getAttribute H cls (localKey rel) m) <$> models) in
  localValues ≠ [] →
  let clauses := PIn (foreignKey rel) localValues
                 :: soft_delete_filter relatedClass (new_builder "") in
  let fetched :=
    hydrate H relatedClass <$>
      filter (λ r, matches_all clauses r = true)
             (rows_of w (getTableName relatedClass)) in
  loadRelation H registry cls qb models relation w
  = (Ok ((λ owner,
            with_relation relation
              (RMany (filter (λ r, related_key H relatedClass r
                                   = toPropertyKey H
                                       (getAttribute H cls (localKey rel) owner))
                             fetched))
              owner) <$> models),
     log (EvSelect (getTableName relatedClass) clauses) w).
Proof.
  intros Hsplit Hc -> Hm Hk Hrel Hreg rel localValues Hlv clauses fetched.
  subst rel localValues clauses fetched.
  unfold loadRelation. rewrite Hsplit, Hc. cbn [load_path]. rewrite Hm.
  rewrite bool_decide_eq_false_2 by done.
  unfold getRelatedClass. rewrite Hrel, Hreg.
  rewrite bool_decide_eq_false_2 by (rewrite Hk; done).
  unfold bind, knex_select, ret. f_equal. f_equal.
  apply list_fmap_ext. intros i owner _.
  apply assign_related_plural. unfold is_singular. by rewrite Hk.
Qed.

(** When no owner has a truthy local key, [loadRelation] returns early:
    nothing is asked of the engine and no owner is assigned anything. *)
Lemma loadRelation_no_keys cls qb (models : list Model) relationName relation
    rest method firstModel others w :
  split_dot relationName = relation :: rest →
  models = firstModel :: others →
  relationMethods cls !! relation = Some method →
  Forall (λ m, truthy (getAttribute H cls (localKey (method firstModel)) m)
               = false) models →
  loadRelation H registry cls qb models relationName w = (Ok models, w).
Proof.
  intros Hsplit -> Hm Hall. unfold loadRelation. rewrite Hsplit.
  assert (filter (λ v, truthy v = true)
            ((λ m, getAttribute H cls (localKey (method firstModel)) m)
               <$> firstModel :: others) = []) as Hnil.
  { induction Hall as [|m ms Hm1 _ IH]; [done|].
    rewrite fmap_cons, filter_cons. rewrite decide_False by (by rewrite Hm1).
    done. }
  destruct rest; cbn [load_path]; rewrite Hm, Hnil; done.
Qed.

End BuilderFacts.

(** ** Soft deletes *)

Section SoftDelete.
Context (H : Host) (registry : gmap string ModelClass) (cls : ModelClass).

Lemma setAttribute_lookup_ne k v c (m : Model) :
  k ≠ c → attributes (setAttribute H cls k v m) !! c = attributes m !! c.
Proof.
  intros Hne. unfold setAttribute. case_match; simpl; by rewrite lookup_insert_ne.
Qed.

Lemma setAttribute_lookup_plain k v (m : Model) :
  casts cls !! k = None → attributes (setAttribute H cls k v m) !! k = Some v.
Proof.
  intros Hc. unfold setAttribute. rewrite Hc.
  case_match; simpl; rewrite lookup_insert_eq; by destruct v.
Qed.

Lemma setAttribute_dirty k v (m : Model) :
  exists_ m = true → _deferred m = None →
  _dirty (setAttribute H cls k v m) = set_add k (_dirty m).
Proof. intros He Hd. unfold setAttribute. by rewrite He, Hd. Qed.

Lemma set_all_lookup_plain kvs c (m : Model) :
  casts cls !! c = None → NoDup kvs.*1 →
  attributes (set_all H cls kvs m) !! c = (list_to_map kvs ∪ attributes m) !! c.
Proof.
  intros Hc. revert m. induction kvs as [|[k v] kvs IH]; intros m Hnd.
  { unfold set_all. simpl. by rewrite (left_id_L ∅ (∪)). }
  apply NoDup_cons in Hnd as [Hk Hnd].
  change (set_all H cls ((k, v) :: kvs) m)
    with (set_all H cls kvs (setAttribute H cls k v m)).
  rewrite (IH _ Hnd). simpl. rewrite !lookup_union.
  destruct (decide (k = c)) as [->|Hne].
  - rewrite lookup_insert_eq, setAttribute_lookup_plain by done.
    rewrite (not_elem_of_list_to_map_1 _ _ Hk). by destruct (attributes m !! c).
  - by rewrite lookup_insert_ne, setAttribute_lookup_ne.
Qed.

(** Hydration copies the columns that have no cast. *)
Lemma hydrate_lookup_plain row c :
  casts cls !! c = None → attributes (hydrate H cls row) !! c = row !! c.
Proof.
  intros Hc. unfold hydrate, _initialize, new_model. simpl.
  case_bool_decide as He; simpl; [by subst row|].
  rewrite set_all_lookup_plain by (done || apply NoDup_fst_map_to_list).
  simpl. by rewrite list_to_map_to_list, (right_id_L ∅ (∪)).
Qed.

Lemma getDirty_lookup (m : Model) c :
  getDirty m !! c
  = if bool_decide (c ∈ _dirty m) then Some (prop (attributes m) c) else None.
Proof.
  unfold getDirty. induction (_dirty m) as [|x l IH] using rev_ind.
  { by rewrite bool_decide_eq_false_2 by apply not_elem_of_nil. }
  rewrite foldl_app. simpl. destruct (decide (x = c)) as [->|Hne].
  - rewrite lookup_insert_eq, bool_decide_eq_true_2; [done|].
    apply elem_of_app. right. by apply list_elem_of_singleton.
  - rewrite lookup_insert_ne, IH by done.
    destruct (decide (c ∈ l)) as [Hin|Hnin].
    + rewrite !bool_decide_eq_true_2; [done| |done].
      apply elem_of_app. by left.
    + rewrite !bool_decide_eq_false_2; [done| |done].
      rewrite elem_of_app, list_elem_of_singleton. intros [?|?]; [done|congruence].
Qed.

Context (Hcls : plain_soft_deleting cls).
#[local] Set Default Proof Using "All".

Lemma hooks_only_rows w w' tbl : hooks_only w w' → rows_of w' tbl = rows_of w tbl.
Proof. intros (Hdb & _). unfold rows_of. by rewrite Hdb. Qed.

Lemma run_handlers_passive evt hs (m : Model) : ∀ w,
  Forall passive hs →
  ∃ w', run_handlers H cls evt hs m w = (true, m, w') ∧ hooks_only w w'.
Proof.
  induction hs as [|h hs IH]; intros w Hp.
  - exists w. split; [done|apply hooks_only_refl].
  - apply Forall_cons in Hp as [Hh Hp]. simpl. unfold bind, emit.
    destruct (Hh m) as [Hr Hw]. destruct (h m) as [r writes].
    simpl in Hr, Hw. subst writes.
    rewrite bool_decide_eq_false_2 by done.
    change (set_all H cls [] m) with m.
    destruct (IH (log (EvHook evt) w) Hp) as (w' & Hrun & Hh').
    exists w'. split; [exact Hrun|].
    eapply hooks_only_trans; [apply hooks_only_log|done].
Qed.

Lemma fireEvent_passive evt (m : Model) w :
  ∃ w', fireEvent H cls evt m w = (true, m, w') ∧ hooks_only w w'.
Proof. apply run_handlers_passive, (psd_events Hcls). Qed.

Lemma query_of_plain : query_of cls = new_builder (getTableName cls).
Proof. unfold query_of, applyGlobalScopes. by rewrite (psd_scopes Hcls). Qed.

Lemma matches_key k (r : gmap string jsval) :
  nullish k = false →
  matches_all [PEq (primaryKey cls) k] r = true ↔ r !! primaryKey cls = Some k.
Proof.
  intros Hk. unfold matches_all. cbn [forallb]. rewrite andb_true_r.
  assert (matches r (PEq (primaryKey cls) k)
          = negb (sql_null (r !! primaryKey cls))
            && bool_decide (r !! primaryKey cls = Some k)) as ->
    by (by destruct k).
  rewrite andb_true_iff, bool_decide_eq_true. split; [by intros [_ ?]|].
  intros Hr. split; [|done]. rewrite Hr. by destruct k.
Qed.

Lemma updated_rows_sentinel k data rs r' v :
  nullish k = false → data !! "deleted_at" = Some v →
  r' ∈ updated_rows cls k data rs → r' !! primaryKey cls = Some k →
  r' !! "deleted_at" = Some v.
Proof.
  intros Hk Hd Hin Hr'. apply list_elem_of_fmap in Hin as (r & -> & _).
  destruct (matches_all [PEq (primaryKey cls) k] r) eqn:Hm.
  - by apply lookup_union_Some_l.
  - apply (matches_key k r Hk) in Hr'. congruence.
Qed.

Lemma updated_rows_keeps k data rs r :
  nullish k = false → data !! primaryKey cls = None →
  r ∈ rs → r !! primaryKey cls = Some k →
  ∃ r', r' ∈ updated_rows cls k data rs ∧ r' !! primaryKey cls = Some k.
Proof.
  intros Hk Hd Hin Hr. exists (data ∪ r). split.
  - apply list_elem_of_fmap. exists r. split; [|done].
    by rewrite (proj2 (matches_key k r Hk) Hr).
  - rewrite lookup_union_r; done.
Qed.

(** Writing the sentinel on a clean, persisted entity and saving it: one
    update on the rows with the entity's key, which carries the sentinel
    and leaves the key column alone. *)
Lemma save_sentinel (m : Model) v k w :
  exists_ m = true → _deferred m = None → _dirty m = [] →
  attributes m !! primaryKey cls = Some k →
  ∃ m' w' data,
    save H cls (setAttribute H cls "deleted_at" v m) w = (true, m', w') ∧
    exists_ m' = true ∧ _deferred m' = None ∧ _dirty m' = [] ∧
    attributes m' !! primaryKey cls = Some k ∧
    attributes m' !! "deleted_at" = Some v ∧
    data !! "deleted_at" = Some v ∧ data !! primaryKey cls = None ∧
    rows_of w' (getTableName cls)
    = updated_rows cls k data (rows_of w (getTableName cls)).
Proof.
  intros He Hd Hdirty Hkey.
  set (m1 := setAttribute H cls "deleted_at" v m).
  assert (exists_ m1 = true) as He1 by (by subst m1; rewrite setAttribute_exists).
  assert (_deferred m1 = None) as Hd1 by (by subst m1; rewrite setAttribute_deferred).
  assert (_dirty m1 = ["deleted_at"]) as Hdirty1.
  { subst m1. rewrite setAttribute_dirty, Hdirty by done. done. }
  pose proof (psd_key_1 Hcls) as Hk1. pose proof (psd_key_2 Hcls) as Hk2.
  unfold save. rewrite (initialize_idem H cls m1 Hd1), He1. simpl.
  unfold isDirty. rewrite Hdirty1. simpl.
  unfold save_update, bind.
  destruct (fireEvent_passive "updating" m1 w) as (wa & -> & Ha). simpl.
  destruct (fireEvent_passive "saving" m1 wa) as (wb & -> & Hb). simpl.
  pose proof (hooks_only_trans _ _ _ Ha Hb) as Hab.
  set (m3 := (stamp H cls ["updated_at"] m1 wb).1).
  assert (stamp H cls ["updated_at"] m1 wb = (m3, wb)) as ->.
  { subst m3. unfold stamp. by destruct (timestamps cls). }
  assert (exists_ m3 = true ∧ _deferred m3 = None) as [He3 Hd3].
  { destruct (stamp_spec H cls ["updated_at"] m1 wb) as (_ & ? & ?).
    subst m3. split; congruence. }
  assert (attributes m3 !! "deleted_at" = Some v ∧
          attributes m3 !! primaryKey cls = Some k ∧
          "deleted_at" ∈ _dirty m3 ∧ primaryKey cls ∉ _dirty m3)
    as (Ha3 & Hk3 & Hin3 & Hnin3).
  { subst m3. unfold stamp. destruct (timestamps cls); unfold bind, now, ret;
      simpl.
    - change (set_all H cls [("updated_at", VDate (clock wb))] m1)
        with (setAttribute H cls "updated_at" (VDate (clock wb)) m1).
      rewrite !setAttribute_lookup_ne by done.
      rewrite setAttribute_dirty, Hdirty1 by done. subst m1.
      rewrite setAttribute_lookup_plain by apply (psd_cast_sentinel Hcls).
      rewrite setAttribute_lookup_ne by done.
      assert (set_add "updated_at" ["deleted_at"] = ["deleted_at"; "updated_at"])
        as -> by (vm_compute; reflexivity).
      split_and!; [done|done| |].
      + apply list_elem_of_In. by left.
      + intros Hin. apply list_elem_of_In in Hin.
        destruct Hin as [?|[?|[]]]; congruence.
    - rewrite Hdirty1. subst m1.
      rewrite setAttribute_lookup_plain by apply (psd_cast_sentinel Hcls).
      rewrite setAttribute_lookup_ne by done.
      split_and!; [done|done| |].
      + by apply list_elem_of_singleton.
      + rewrite list_elem_of_singleton. done. }
  set (data := delete "created_at" (getDirty m3)).
  assert (data !! "deleted_at" = Some v) as Hdata.
  { subst data. rewrite lookup_delete_ne by done.
    rewrite getDirty_lookup, bool_decide_eq_true_2 by done.
    unfold prop. by rewrite Ha3. }
  assert (data !! primaryKey cls = None) as Hdatak.
  { subst data. destruct (decide ("created_at" = primaryKey cls)) as [<-|?].
    - apply lookup_delete_eq.
    - rewrite lookup_delete_ne by done.
      by rewrite getDirty_lookup, bool_decide_eq_false_2. }
  rewrite bool_decide_eq_false_2; cycle 1.
  { intros Hemp. rewrite Hemp, lookup_empty in Hdata. done. }
  unfold knex_update.
  match goal with |- context [fireEvent H cls "updated" m3 ?x] =>
    set (wc := x) end.
  assert (rows_of wc (getTableName cls)
          = updated_rows cls k data (rows_of w (getTableName cls))) as Hrows.
  { subst wc. unfold rows_of, set_rows, log. simpl.
    rewrite query_of_plain. simpl. rewrite lookup_insert_eq. simpl.
    unfold updated_rows, getKey, prop. rewrite Hk3.
    destruct Hab as (-> & _). done. }
  destruct (fireEvent_passive "updated" m3 wc) as (wd & -> & Hd').
  destruct (fireEvent_passive "saved" m3 wd) as (we & -> & He').
  unfold ret.
  eexists _, _, data. split; [reflexivity|].
  split_and!; try done.
  rewrite (hooks_only_rows _ _ _ He'), (hooks_only_rows _ _ _ Hd'). done.
Qed.

Lemma visible_iff flags k w :
  nullish k = false →
  let qb := flags (new_builder (getTableName cls)) in
  eagerLoad qb = [] → query qb = mkKnex (getTableName cls) [] →
  visible H registry cls qb w k ↔
  ∃ r, r ∈ rows_of w (getTableName cls) ∧
       matches_all (soft_delete_filter cls qb) r = true ∧
       r !! primaryKey cls = Some k.
Proof.
  intros Hk qb Hl Hq. unfold visible, returned, get, bind, knex_select.
  rewrite Hl. unfold ret, filtered. rewrite Hq. simpl.
  assert (∀ r, getKey cls (hydrate H cls r) = k ↔ r !! primaryKey cls = Some k)
    as Hkey.
  { intros r. unfold getKey, prop.
    rewrite hydrate_lookup_plain by apply (psd_cast_key Hcls).
    destruct (r !! primaryKey cls) as [x|]; simpl.
    - split; congruence.
    - split; [intros <-|]; done. }
  split.
  - intros (m & Hin & Hm). apply list_elem_of_fmap in Hin as (r & -> & Hin).
    apply list_elem_of_filter in Hin as [Hf Hin].
    exists r. split_and!; [done|done|by apply Hkey].
  - intros (r & Hin & Hf & Hr). exists (hydrate H cls r). split; [|by apply Hkey].
    apply list_elem_of_fmap. exists r. split; [done|].
    by apply list_elem_of_filter.
Qed.


End SoftDelete.

(** * The shop of the specification, run on the model *)

(** C1.  On the scenario of the specification the loader does issue the one
    query [WHERE order_id IN (1, 2)], but it files the items under their own
    [id], so order 1 and order 2 both end up with no item at all, where the
    specification expects 2 and 1. *)
Theorem eager_hasMany_scenario_loses_items :
  let r := get sample_host shop_registry Order
             (with_ ["items"] (query_of Order)) shop in
  trace r.2 = [EvSelect "orders" [];
               EvSelect "items" [PIn "order_id" [VNum 1; VNum 2]]] ∧
  loaded_counts "items" r.1 = [Some 0%nat; Some 0%nat].
Proof. vm_compute. done. Qed.

(** Asking each order for its items, one order at a time, does give 2 and
    1. *)
Example lazy_hasMany_scenario :
  let items_of row :=
    match (hasMany_getResults sample_host shop_registry Order
             (mkRelation HasMany (RName "Item") "order_id" "id" "" "")
             (hydrate sample_host Order row) shop).1 with
    | Ok ms => Some (length ms)
    | Throw _ => None
    end in
  items_of (row_of [("id", VNum 1)]) = Some 2%nat ∧
  items_of (row_of [("id", VNum 2)]) = Some 1%nat.
Proof. vm_compute. split; reflexivity. Qed.

(** An item whose own [id] happens to be that of an order is handed to that
    order, whatever its [order_id] says. *)
Example eager_hasMany_matches_on_item_id :
  let w := set_rows "items" [row_of [("id", VNum 2); ("order_id", VNum 1)]] shop in
  loaded_counts "items"
    (get sample_host shop_registry Order (with_ ["items"] (query_of Order)) w).1
  = [Some 0%nat; Some 1%nat].
Proof. vm_compute. done. Qed.

(** C8.  Two orders without a key: no query, and [relations] has no entry
    for [items] afterwards, neither an empty list nor [null].  With keys but
    no [customer_id], the query for the customers is issued all the same,
    with an empty list of values. *)
Theorem eager_load_without_keys_assigns_nothing :
  let orphans := [hydrate sample_host Order (row_of [("total", VNum 5)]);
                  hydrate sample_host Order (row_of [("id", VNull)])] in
  let r := loadRelation sample_host shop_registry Order
             (with_ ["items"] (query_of Order)) orphans "items" shop in
  r = (Ok orphans, shop) ∧
  Forall (λ m, relations m !! "items" = None) orphans ∧
  let r' := get sample_host shop_registry Order
              (with_ ["customer"] (query_of Order)) shop in
  trace r'.2 = [EvSelect "orders" []; EvSelect "customers" [PIn "id" []]].
Proof. vm_compute. split_and!; [done| by repeat constructor |done]. Qed.

(** The same batch with one keyed order in it: now the orders without a key
    do receive the empty list. *)
Example eager_load_mixed_keys_assigns_empty :
  let owners := [hydrate sample_host Order (row_of [("total", VNum 5)]);
                 hydrate sample_host Order (row_of [("id", VNum 1)])] in
  loaded_counts "items"
    (loadRelation sample_host shop_registry Order
       (with_ ["items"] (query_of Order)) owners "items" shop).1
  = [Some 0%nat; Some 0%nat].
Proof. vm_compute. done. Qed.

(** ** Lifecycle handlers on the model *)


(** [delete()] with a [deleting] handler that answers [false]: the row is
    deleted all the same and the answer is [true]. *)
Example deleting_handler_cannot_abort_delete :
  let w := set_rows "frozen" [row_of [("id", VNum 1)]] shop in
  let r := delete_ sample_host Frozen (hydrate sample_host Frozen (row_of [("id", VNum 1)])) w in
  r.1.1 = true ∧ rows_of r.2 "frozen" = [] ∧
  trace r.2 = [EvHook "deleting"; EvDelete "frozen" [PEq "id" (VNum 1)]].
Proof. vm_compute. done. Qed.




(** ** Polymorphic owners *)

(** C7 does not hold for every non-null id: with the id 0 and the
    unregistered type name [Post] the answer is [null], not a failure. *)
Lemma morphTo_zero_id_yields_null :
  let parent := hydrate sample_host Comment
                  (row_of [("id", VNum 3); ("commentable_type", VStr "Post");
                           ("commentable_id", VNum 0)]) in
  nullish (getAttribute sample_host Comment "commentable_id" parent) = false ∧
  ModelRegistry.get shop_registry
    (getAttribute sample_host Comment "commentable_type" parent) = None ∧
  morphTo_getResults sample_host shop_registry Comment commentable parent shop
  = (Ok None, shop).
Proof. vm_compute. done. Qed.

Lemma morphTo_unregistered_type_throws_witness :
  let parent := hydrate sample_host Comment
                  (row_of [("id", VNum 3); ("commentable_type", VStr "Post");
                           ("commentable_id", VNum 5)]) in
  morphTo_getResults sample_host shop_registry Comment commentable parent shop
  = (Throw ("Model '"
            +:+ toPropertyKey sample_host
                  (getAttribute sample_host Comment (morphType commentable) parent)
            +:+ "' not found in registry. Register it using ModelRegistry.register()"),
     shop).
Proof.
  intros parent.
  apply (morphTo_unregistered_type_throws sample_host shop_registry Comment
           commentable parent shop); vm_compute; reflexivity.
Defined.

Example morphTo_message_names_the_model :
  let parent := hydrate sample_host Comment
                  (row_of [("id", VNum 3); ("commentable_type", VStr "Post");
                           ("commentable_id", VNum 5)]) in
  morphTo_getResults sample_host shop_registry Comment commentable parent shop
  = (Throw "Model 'Post' not found in registry. Register it using ModelRegistry.register()",
     shop).
Proof. vm_compute. reflexivity. Qed.

(** ** Keys that are not called [id] *)

Lemma find_filters_on_literal_id_witness :
  let clauses := k_wheres (query (query_of Ticket))
                 ++ PEq "id" (VNum 7) :: soft_delete_filter Ticket (query_of Ticket) in
  find sample_host shop_registry Ticket (query_of Ticket) (VNum 7) desk
  = (Ok (hydrate sample_host Ticket <$>
           head (filter (λ r, matches_all clauses r = true)
                        (rows_of desk (k_table (query (query_of Ticket)))))),
     log (EvSelectFirst (k_table (query (query_of Ticket))) clauses) desk) ∧
  ∀ v, PEq (primaryKey Ticket) v
       ∉ PEq "id" (VNum 7) :: soft_delete_filter Ticket (query_of Ticket).
Proof.
  destruct (find_filters_on_literal_id sample_host shop_registry Ticket
              (query_of Ticket) (VNum 7) desk) as (_ & Hr & _ & Hk).
  split.
  - apply Hr. vm_compute. reflexivity.
  - apply Hk. vm_compute. intros Heq. discriminate Heq.
Defined.

(** [Ticket.find(7)] answers with the ticket whose [id] column holds 7; its
    key is 3. *)
Example find_by_id_misses_the_key :
  let r := find sample_host shop_registry Ticket (query_of Ticket) (VNum 7) desk in
  trace r.2 = [EvSelectFirst "tickets" [PEq "id" (VNum 7)]] ∧
  (getKey Ticket <$> match r.1 with Ok o => o | Throw _ => None end)
  = Some (VNum 3).
Proof. vm_compute. split; reflexivity. Qed.

Lemma hydrated_entities_witness :
  let m := hydrate sample_host Order (row_of [("id", VNum 1)]) in
  let m' := setAttribute sample_host Order "total" (VNum 9) m in
  let loaded := with_ ["items"] (query_of Order) in
  clean m ∧
  save sample_host Order m' shop = save_update sample_host Order m' shop ∧
  Forall clean (returned sample_host shop_registry Order loaded shop).
Proof.
  destruct (hydrated_entities_exist_and_are_clean sample_host shop_registry Order)
    as (H1 & H2 & _ & _ & H5).
  intros m m' loaded. split; [apply H1|]. split.
  - apply (H5 (row_of [("id", VNum 1)]) "total" (VNum 9) shop).
  - apply (H2 loaded shop _ (get sample_host shop_registry Order loaded shop).2).
    vm_compute. reflexivity.
Defined.

(** The update that a changed attribute of a hydrated order leads to. *)
Example hydrated_then_changed_is_updated :
  let m := hydrate sample_host Order (row_of [("id", VNum 1)]) in
  trace (save sample_host Order
           (setAttribute sample_host Order "total" (VNum 9) m) shop).2
  = [EvUpdate "orders" [PEq "id" (VNum 1)] (row_of [("total", VNum 9)])].
Proof. vm_compute. reflexivity. Qed.

(** ** Soft deletes on the model *)

Lemma Account_plain : plain_soft_deleting Account.
Proof.
  constructor; try (vm_compute; reflexivity);
    try (vm_compute; intros Heq; discriminate Heq).
  intros evt. unfold Account, events.
  destruct (decide (evt = "deleting")) as [->|Hne].
  - rewrite lookup_singleton_eq. repeat constructor. intros Heq. discriminate Heq.
  - rewrite lookup_singleton_ne by done. constructor.
Defined.


Example soft_delete_scenario :
  let d := delete_ sample_host Account
             (hydrate sample_host Account
                (row_of [("id", VNum 1); ("owner", VStr "ada")])) bank in
  let r := restore sample_host Account d.1.2 d.2 in
  keys_returned Account (query_of Account) d.2 = [VNum 2] ∧
  keys_returned Account (withTrashed (query_of Account)) d.2 = [VNum 1; VNum 2] ∧
  keys_returned Account (onlyTrashed (query_of Account)) d.2 = [VNum 1] ∧
  keys_returned Account (query_of Account) r.2 = [VNum 1; VNum 2] ∧
  trace r.2
  = [EvHook "deleting";
     EvUpdate "accounts" [PEq "id" (VNum 1)]
       (row_of [("deleted_at", VDate 1000); ("updated_at", VDate 1000)]);
     EvUpdate "accounts" [PEq "id" (VNum 1)]
       (row_of [("deleted_at", VNull); ("updated_at", VDate 1000)])].
Proof. vm_compute. split_and!; reflexivity. Qed.

(** ** Custom casts *)

Section Casts.
Context (h : CastHost).

Lemma MoneyCast_number f :
  MoneyCast_get h (MoneyCast_set h (CNum f)) = money_round_trip f.
Proof.
  unfold MoneyCast_get, MoneyCast_set, money_round_trip.
  destruct (c_truthy (CNum f)); [|done]. simpl toNumber.
  by destruct (c_truthy (CNum _)).
Qed.

Lemma whole_cents_from_spec k : ∀ n i,
  whole_cents_from k n = true → n ≤ i < n + Z.of_nat k →
  whole_cents_ok i = true.
Proof.
  induction k as [|k IH]; intros n i Hall Hi; [lia|].
  simpl in Hall. apply andb_true_iff in Hall as [Hn Hrest].
  destruct (decide (i = n)) as [->|Hne]; [done|].
  apply (IH (n + 1)); [done|lia].
Qed.

Lemma whole_cents_checked :
  whole_cents_from (Z.to_nat 100000) 1 = true.
Proof. vm_compute. reflexivity. Qed.


End Casts.



(** The two examples of the specification, run. *)
Example money_19_99 :
  MoneyCast_set sample_cast_host (CNum (cents 1999)) = CNum (float_of_Z 1999) ∧
  MoneyCast_get sample_cast_host (CNum (float_of_Z 1999)) = CNum (cents 1999).
Proof. vm_compute. split; reflexivity. Qed.

Example json_a_is_1 :
  JsonCast_set sample_cast_host a_is_1 = CStr a_is_1_text ∧
  JsonCast_get sample_cast_host (CStr a_is_1_text) = Ok a_is_1.
Proof. vm_compute. split; reflexivity. Qed.

(** Other values that do not come back: zero is taken for "no value", and a
    string is stored as it is but parsed when read. *)
Example money_zero_comes_back_null :
  MoneyCast_get sample_cast_host (MoneyCast_set sample_cast_host (CNum PrimFloat.zero))
  = CNull.
Proof. vm_compute. reflexivity. Qed.

Example json_string_is_parsed_on_read :
  JsonCast_get sample_cast_host (JsonCast_set sample_cast_host (CStr "abc"))
  = Throw "SyntaxError".
Proof. vm_compute. reflexivity. Qed.

(** * Further properties of the code *)

(** ** Mass assignment *)

Section MassAssignment.
Context (H : Host) (cls : ModelClass).

Lemma set_all_untouched k kvs (m : Model) :
  k ∉ kvs.*1 →
  attributes (set_all H cls kvs m) !! k = attributes m !! k ∧
  (k ∈ _dirty (set_all H cls kvs m) ↔ k ∈ _dirty m).
Proof.
  revert m. induction kvs as [|[k' v] kvs IH]; intros m Hk; [done|].
  rewrite fmap_cons, not_elem_of_cons in Hk. destruct Hk as [Hne Hk].
  change (set_all H cls ((k', v) :: kvs) m)
    with (set_all H cls kvs (setAttribute H cls k' v m)).
  destruct (IH (setAttribute H cls k' v m) Hk) as [-> ->].
  rewrite setAttribute_lookup_ne by done. split; [done|].
  unfold setAttribute. case_match; simpl; [|done].
  rewrite elem_of_set_add. split; [|by right].
  intros [Heq|?]; [|done]. by destruct Hne.
Qed.

Lemma fill_nothing attrs (m : Model) :
  fillable cls = [] → "*" ∈ guarded cls → fill H cls attrs m = m.
Proof.
  intros Hf Hg. unfold fill.
  assert (filter (λ kv : string * jsval, isFillable cls kv.1 = true)
            (map_to_list attrs) = []) as ->; [|done].
  induction (map_to_list attrs) as [|kv l IH]; [done|].
  rewrite filter_cons, decide_False; [done|].
  unfold isFillable. rewrite Hf. by rewrite bool_decide_eq_true_2.
Qed.

(** X1.  [fill] assigns the keys that [isFillable] lets through and no
    other: on a class that lists nothing as fillable and guards everything,
    it does nothing at all. *)
Theorem fill_respects_guard attrs (m : Model) :
  (fillable cls = [] → "*" ∈ guarded cls → fill H cls attrs m = m) ∧
  (∀ k, isFillable cls k = false →
     attributes (fill H cls attrs m) !! k = attributes m !! k ∧
     (k ∈ _dirty (fill H cls attrs m) ↔ k ∈ _dirty m)) ∧
  (∀ k v, isFillable cls k = true → attrs !! k = Some v →
     casts cls !! k = None →
     attributes (fill H cls attrs m) !! k = Some v).
Proof.
  split_and!.
  - apply fill_nothing.
  - intros k Hk. apply set_all_untouched. intros Hin.
    apply list_elem_of_fmap in Hin as ([k' v] & -> & Hin).
    apply list_elem_of_filter in Hin as [Hf _]. simpl in *. congruence.
  - intros k v Hk Ha Hc. unfold fill.
    rewrite set_all_lookup_plain; [|done|].
    + rewrite lookup_union.
      assert (list_to_map (filter (λ kv : string * jsval, isFillable cls kv.1 = true)
                (map_to_list attrs)) !! k = Some v) as ->.
      { apply elem_of_list_to_map_1.
        - eapply NoDup_fmap_fst; [|apply NoDup_filter, NoDup_map_to_list].
          intros x y1 y2 [_ H1]%list_elem_of_filter [_ H2]%list_elem_of_filter.
          apply elem_of_map_to_list in H1, H2. congruence.
        - apply list_elem_of_filter. split; [done|]. by apply elem_of_map_to_list. }
      by destruct (attributes m !! k).
    + eapply NoDup_fmap_fst; [|apply NoDup_filter, NoDup_map_to_list].
      intros x y1 y2 [_ H1]%list_elem_of_filter [_ H2]%list_elem_of_filter.
      apply elem_of_map_to_list in H1, H2. congruence.
Qed.

(** X2.  [update] on a persisted, unchanged entity of a class that lists
    nothing as fillable: the attributes are dropped, nothing is asked of the
    engine, no handler runs, and the answer is [true]. *)
Theorem update_on_guarded_class_is_silent attrs (m : Model) w :
  fillable cls = [] → "*" ∈ guarded cls →
  exists_ m = true → _dirty m = [] →
  update H cls attrs m w = (true, _initialize H cls m, w).
Proof.
  intros Hf Hg He Hd. unfold update. rewrite fill_nothing by done.
  by apply save_clean.
Qed.

End MassAssignment.

(** ** Inserting, finding, deleting *)

Section Insertion.
Context (H : Host) (registry : gmap string ModelClass) (cls : ModelClass).

Lemma run_handlers_observing evt hs (m : Model) : ∀ w,
  Forall passive hs →
  ∃ w', run_handlers H cls evt hs m w = (true, m, w') ∧ hooks_only w w'.
Proof.
  induction hs as [|h hs IH]; intros w Hp.
  - exists w. split; [done|apply hooks_only_refl].
  - apply Forall_cons in Hp as [Hh Hp]. simpl. unfold bind, emit.
    destruct (Hh m) as [Hr Hw]. destruct (h m) as [r writes].
    simpl in Hr, Hw. subst writes.
    rewrite bool_decide_eq_false_2 by done.
    change (set_all H cls [] m) with m.
    destruct (IH (log (EvHook evt) w) Hp) as (w' & Hrun & Hh').
    exists w'. split; [exact Hrun|].
    eapply hooks_only_trans; [apply hooks_only_log|done].
Qed.

Lemma fireEvent_observing evt (m : Model) w :
  quiet cls →
  ∃ w', fireEvent H cls evt m w = (true, m, w') ∧ hooks_only w w'.
Proof. intros Hq. apply run_handlers_observing, (quiet_events Hq). Qed.

Lemma query_of_quiet :
  quiet cls → query_of cls = new_builder (getTableName cls).
Proof. intros Hq. unfold query_of, applyGlobalScopes. by rewrite (quiet_scopes Hq). Qed.

Lemma hooks_only_db w w' : hooks_only w w' → db w' = db w.
Proof. by intros (? & _). Qed.

Lemma setAttribute_attributes_plain k v (m : Model) :
  casts cls !! k = None →
  attributes (setAttribute H cls k v m) = <[k := v]> (attributes m).
Proof.
  intros Hc. unfold setAttribute. rewrite Hc.
  case_match; simpl; by destruct v.
Qed.

Lemma rows_of_set_rows_eq tbl rs w : rows_of (set_rows tbl rs w) tbl = rs.
Proof. unfold rows_of, set_rows. simpl. by rewrite lookup_insert_eq. Qed.

Lemma rows_of_set_rows_ne tbl t rs w :
  t ≠ tbl → rows_of (set_rows tbl rs w) t = rows_of w t.
Proof. intros Hne. unfold rows_of, set_rows. simpl. by rewrite lookup_insert_ne. Qed.

Lemma rows_of_db w w' t : db w' = db w → rows_of w' t = rows_of w t.
Proof. unfold rows_of. by intros ->. Qed.

Lemma stamp_untouched keys k (m : Model) w :
  k ∉ keys →
  attributes (stamp H cls keys m w).1 !! k = attributes m !! k.
Proof.
  intros Hk. unfold stamp. destruct (timestamps cls); [|done].
  unfold bind, now, ret. simpl.
  apply set_all_untouched. by rewrite <- list_fmap_compose, list_fmap_id.
Qed.

Lemma next_id_fresh pk (rs : list (gmap string jsval)) r :
  r ∈ rs → r !! pk ≠ Some (VNum (next_id pk rs)).
Proof.
  intros Hin.
  assert (∀ n, r !! pk = Some (VNum n) →
            n ≤ foldr (λ r acc, match r !! pk with
                                | Some (VNum n) => Z.max n acc
                                | _ => acc
                                end) 0 rs) as Hle.
  { intros n Hn. induction rs as [|x rs IH]; [by apply elem_of_nil in Hin|].
    simpl. apply elem_of_cons in Hin as [<-|Hin].
    - rewrite Hn. lia.
    - specialize (IH Hin). destruct (x !! pk) as [[]|]; lia. }
  intros Heq. unfold next_id in Heq. specialize (Hle _ Heq). lia.
Qed.

(** What the insert branch of [save] does on a quiet class: the entity is
    first prepared (stamped, given a uuid when the class asks for one), then
    its attributes go to the table as one new row. *)
Lemma save_insert_quiet (m : Model) w :
  quiet cls → casts cls !! primaryKey cls = None →
  _deferred m = None →
  ∃ m' w',
    save_insert H cls m w = (true, m', w') ∧
    exists_ m' = true ∧ wasRecentlyCreated m' = true ∧ _dirty m' = [] ∧
    original m' = attributes m' ∧ _deferred m' = None ∧
    relations m' = relations m ∧
    rows_of w' (getTableName cls)
    = rows_of w (getTableName cls) ++ [attributes m'] ∧
    (∀ t, t ≠ getTableName cls → rows_of w' t = rows_of w t) ∧
    clock w' = clock w ∧
    (∀ k, k ∉ [primaryKey cls; "created_at"; "updated_at"] →
       attributes m' !! k = attributes m !! k) ∧
    (incrementing cls = true →
     primaryKey cls ∉ ["created_at"; "updated_at"] →
     sql_null (attributes m !! primaryKey cls) = true →
     getKey cls m'
     = VNum (next_id (primaryKey cls) (rows_of w (getTableName cls)))).
Proof.
  intros Hq Hc Hd. unfold save_insert, bind.
  destruct (fireEvent_observing "creating" m w Hq) as (wa & -> & Ha). simpl.
  destruct (fireEvent_observing "saving" m wa Hq) as (wb & -> & Hb). simpl.
  pose proof (hooks_only_trans _ _ _ Ha Hb) as Hab.
  destruct (stamp_spec H cls ["created_at"; "updated_at"] m wb) as (Hsw & Hse & Hsd).
  assert (relations (stamp H cls ["created_at"; "updated_at"] m wb).1 = relations m)
    as Hsr.
  { unfold stamp. destruct (timestamps cls); [|done]. unfold bind, now, ret. simpl.
    by rewrite !setAttribute_relations. }
  pose proof (λ k, stamp_untouched ["created_at"; "updated_at"] k m wb) as Hsa.
  destruct (stamp H cls ["created_at"; "updated_at"] m wb) as [m3 w3].
  simpl in Hsw, Hse, Hsd, Hsr, Hsa. subst w3.
  assert (∀ k, k ∉ [primaryKey cls; "created_at"; "updated_at"] →
            k ≠ primaryKey cls ∧ attributes m3 !! k = attributes m !! k) as Hsa'.
  { intros k Hk. rewrite not_elem_of_cons in Hk. destruct Hk as [Hk1 Hk2].
    split; [done|]. by apply Hsa. }
  set (step4 := if negb (incrementing cls) && bool_decide (keyType cls = "string")
       && negb (truthy (getKey cls m3))
     then _ else _).
  assert (_deferred (step4 wb).1 = None ∧ relations (step4 wb).1 = relations m ∧
          db (step4 wb).2 = db wb ∧
          clock (step4 wb).2 = clock wb ∧
          (∀ k, k ≠ primaryKey cls →
             attributes (step4 wb).1 !! k = attributes m3 !! k) ∧
          (incrementing cls = true → (step4 wb).1 = m3))
    as (Hd4 & Hr4 & Hdb4 & Hck4 & Ha4 & Hi4).
  { subst step4. destruct (incrementing cls); simpl; [by rewrite Hsd, Hd, Hsr|].
    case_match; unfold bind, random_uuid, ret; simpl;
      rewrite ?setAttribute_deferred, ?setAttribute_relations, Hsd, Hd, Hsr;
      split_and!; try done.
    intros k Hk. by rewrite setAttribute_lookup_ne. }
  destruct (step4 wb) as [m4 w4]. clear step4.
  simpl in Hd4, Hr4, Hdb4, Hck4, Ha4, Hi4.
  rewrite (query_of_quiet Hq).
  assert (rows_of w4 (getTableName cls) = rows_of w (getTableName cls)) as Hrows4.
  { apply rows_of_db. rewrite Hdb4. by apply hooks_only_db. }
  destruct (incrementing cls).
  - unfold bind, insertGetId, knex_insert_returning, ret, getPrimaryKey. simpl.
    set (id := if sql_null (attributes m4 !! primaryKey cls) then _ else _).
    set (w5 := log _ (set_rows _ _ w4)).
    set (m6 := with_recently true (with_exists true
                 (setAttribute H cls (primaryKey cls) id m4))).
    destruct (fireEvent_observing "created" m6 w5 Hq) as (wc & -> & Hwc).
    destruct (fireEvent_observing "saved" m6 wc Hq) as (wd & -> & Hwd).
    pose proof (hooks_only_trans _ _ _ Hwc Hwd) as Hcd.
    eexists _, _. split; [reflexivity|].
    subst m6. simpl.
    rewrite setAttribute_deferred, setAttribute_relations,
      setAttribute_attributes_plain by done.
    split_and!; try done.
    + rewrite (rows_of_db _ _ _ (hooks_only_db _ _ Hcd)). subst w5.
      change (rows_of (log ?e ?x) ?t) with (rows_of x t).
      by rewrite rows_of_set_rows_eq, Hrows4.
    + intros t Ht. rewrite (rows_of_db _ _ _ (hooks_only_db _ _ Hcd)). subst w5.
      change (rows_of (log ?e ?x) ?t) with (rows_of x t).
      rewrite rows_of_set_rows_ne by done.
      apply rows_of_db. rewrite Hdb4. by apply hooks_only_db.
    + destruct Hcd as (_ & -> & _). subst w5. simpl. rewrite Hck4.
      by destruct Hab as (_ & -> & _).
    + intros k Hk. destruct (Hsa' k Hk) as [Hne <-].
      rewrite lookup_insert_ne by done. by apply Ha4.
    + intros _ Hpk Hnull. unfold getKey, prop. simpl.
      rewrite setAttribute_attributes_plain, lookup_insert_eq by done. simpl.
      subst id. rewrite (Hi4 eq_refl), (Hsa _ Hpk), Hnull.
      by rewrite Hrows4.
  - unfold bind, knex_insert, ret. simpl.
    set (w5 := log _ (set_rows _ _ w4)).
    set (m6 := with_recently true (with_exists true m4)).
    destruct (fireEvent_observing "created" m6 w5 Hq) as (wc & -> & Hwc).
    destruct (fireEvent_observing "saved" m6 wc Hq) as (wd & -> & Hwd).
    pose proof (hooks_only_trans _ _ _ Hwc Hwd) as Hcd.
    eexists _, _. split; [reflexivity|].
    subst m6. simpl.
    split_and!; try done.
    + rewrite (rows_of_db _ _ _ (hooks_only_db _ _ Hcd)). subst w5.
      change (rows_of (log ?e ?x) ?t) with (rows_of x t).
      by rewrite rows_of_set_rows_eq, Hrows4.
    + intros t Ht. rewrite (rows_of_db _ _ _ (hooks_only_db _ _ Hcd)). subst w5.
      change (rows_of (log ?e ?x) ?t) with (rows_of x t).
      rewrite rows_of_set_rows_ne by done.
      apply rows_of_db. rewrite Hdb4. by apply hooks_only_db.
    + destruct Hcd as (_ & -> & _). subst w5. simpl. rewrite Hck4.
      by destruct Hab as (_ & -> & _).
    + intros k Hk. destruct (Hsa' k Hk) as [Hne <-]. by apply Ha4.
Qed.

Lemma initialize_new_lookup_plain attrs c :
  casts cls !! c = None →
  attributes (_initialize H cls (new_model attrs)) !! c = attrs !! c.
Proof.
  intros Hc. unfold _initialize, new_model. simpl.
  case_bool_decide as He; simpl; [by subst attrs|].
  rewrite set_all_lookup_plain by (done || apply NoDup_fst_map_to_list).
  simpl. by rewrite list_to_map_to_list, (right_id_L ∅ (∪)).
Qed.

Lemma matches_eq c k (r : gmap string jsval) :
  nullish k = false → matches r (PEq c k) = true ↔ r !! c = Some k.
Proof.
  intros Hk.
  assert (matches r (PEq c k)
          = negb (sql_null (r !! c)) && bool_decide (r !! c = Some k)) as ->
    by (by destruct k).
  rewrite andb_true_iff, bool_decide_eq_true. split; [by intros [_ ?]|].
  intros Hr. split; [|done]. rewrite Hr. by destruct k.
Qed.

Lemma filter_none {A} (P : A → Prop) `{∀ x, Decision (P x)} (l : list A) :
  (∀ x, x ∈ l → ¬ P x) → filter P l = [].
Proof.
  induction l as [|x l IH]; intros Hl; [done|].
  rewrite filter_cons, decide_False by (apply Hl; left).
  apply IH. intros y Hy. apply Hl. by right.
Qed.




Lemma create_quiet attrs w :
  quiet cls → casts cls !! primaryKey cls = None →
  exists_ (create H cls attrs w).1 = true ∧
  rows_of (create H cls attrs w).2 (getTableName cls)
  = rows_of w (getTableName cls) ++ [attributes (create H cls attrs w).1] ∧
  (∀ t, t ≠ getTableName cls →
     rows_of (create H cls attrs w).2 t = rows_of w t) ∧
  (∀ k, casts cls !! k = None →
     k ∉ [primaryKey cls; "created_at"; "updated_at"] →
     attributes (create H cls attrs w).1 !! k = attrs !! k).
Proof.
  intros Hq Hc. unfold create, bind.
  assert (exists_ (make H cls attrs w).1 = false ∧
          _deferred (make H cls attrs w).1 = None ∧
          db (make H cls attrs w).2 = db w ∧
          (∀ k, casts cls !! k = None → k ≠ primaryKey cls →
             attributes (make H cls attrs w).1 !! k = attrs !! k))
    as (He & Hd & Hdb & Hv).
  { unfold make. case_match; unfold bind, random_uuid, ret; simpl;
      rewrite ?setAttribute_exists, ?setAttribute_deferred,
        initialize_exists, initialize_deferred;
      (split_and!; [done|done|done|]); intros k Hk Hne;
      rewrite ?setAttribute_lookup_ne by done;
      by apply initialize_new_lookup_plain. }
  destruct (make H cls attrs w) as [inst w1]. simpl in He, Hd, Hdb, Hv.
  assert (save H cls inst w1 = save_insert H cls inst w1) as ->.
  { unfold save. by rewrite initialize_idem, He. }
  destruct (save_insert_quiet inst w1 Hq Hc Hd)
    as (m' & w' & -> & He' & _ & _ & _ & _ & _ & Hrows & Hother & _ & Hattr & _).
  simpl. split_and!; [done| | |].
  - by rewrite Hrows, (rows_of_db _ _ _ Hdb).
  - intros t Ht. by rewrite Hother, (rows_of_db _ _ _ Hdb).
  - intros k Hk Hnot. rewrite Hattr by done. apply Hv; [done|].
    rewrite not_elem_of_cons in Hnot. by destruct Hnot.
Qed.


Lemma save_existing_quiet (m : Model) w :
  quiet cls → exists_ m = true → _deferred m = None →
  ∃ m' w',
    save H cls m w = (true, m', w') ∧ exists_ m' = true ∧ _deferred m' = None ∧
    (∀ k, k ≠ "updated_at" → attributes m' !! k = attributes m !! k).
Proof.
  intros Hq He Hd. unfold save. rewrite initialize_idem, He by done. simpl.
  destruct (isDirty m); [|by exists m, w].
  unfold save_update, bind.
  destruct (fireEvent_observing "updating" m w Hq) as (wa & -> & Ha). simpl.
  destruct (fireEvent_observing "saving" m wa Hq) as (wb & -> & Hb). simpl.
  destruct (stamp_spec H cls ["updated_at"] m wb) as (Hsw & Hse & Hsd).
  pose proof (λ k, stamp_untouched ["updated_at"] k m wb) as Hsa.
  destruct (stamp H cls ["updated_at"] m wb) as [m3 w3].
  simpl in Hsw, Hse, Hsd, Hsa. subst w3.
  match goal with |- context [(if ?c then ?a else ?b) wb] =>
    destruct ((if c then a else b) wb) as [n w4] end.
  destruct (fireEvent_observing "updated" m3 w4 Hq) as (wc & -> & Hwc).
  destruct (fireEvent_observing "saved" m3 wc Hq) as (wd & -> & Hwd).
  eexists _, _. split; [reflexivity|]. simpl.
  split; [congruence|]. split; [congruence|].
  intros k Hk. apply Hsa. rewrite list_elem_of_singleton. done.
Qed.




Lemma only_lookup keys (m : Model) k :
  only H cls keys m !! k
  = if bool_decide (k ∈ keys)
    then (λ _, getAttribute H cls k m) <$> attributes m !! k
    else None.
Proof.
  unfold only. induction keys as [|x keys IH] using rev_ind.
  { by rewrite bool_decide_eq_false_2 by apply not_elem_of_nil. }
  rewrite foldl_app. simpl.
  destruct (decide (x = k)) as [->|Hne].
  - rewrite (bool_decide_eq_true_2 (k ∈ keys ++ [k]))
      by (apply elem_of_app; right; by apply list_elem_of_singleton).
    destruct (attributes m !! k) as [v|] eqn:Hv.
    + rewrite bool_decide_eq_true_2 by eauto. by rewrite lookup_insert_eq.
    + rewrite bool_decide_eq_false_2 by (by intros [? ?]).
      rewrite IH. by case_bool_decide.
  - assert (bool_decide (k ∈ keys ++ [x]) = bool_decide (k ∈ keys)) as ->.
    { apply bool_decide_ext. rewrite elem_of_app, list_elem_of_singleton.
      split; [intros [?|?]; [done|congruence]|by left]. }
    destruct (bool_decide (is_Some (attributes m !! x)));
      [rewrite lookup_insert_ne by done|]; exact IH.
Qed.

Lemma except_lookup keys (m : Model) k :
  except H cls keys m !! k
  = if bool_decide (k ∈ keys) then None
    else (λ _, getAttribute H cls k m) <$> attributes m !! k.
Proof.
  unfold except.
  assert (∀ l : list (string * jsval),
    foldl (λ (result : gmap string jsval) (kv : string * jsval),
             if bool_decide (kv.1 ∈ keys) then result
             else <[kv.1 := getAttribute H cls kv.1 m]> result) ∅ l !! k
    = if bool_decide (k ∈ keys) then None
      else if bool_decide (k ∈ l.*1) then Some (getAttribute H cls k m)
           else None) as Hl.
  { intros l. induction l as [|[x v] l IH] using rev_ind.
    { simpl. rewrite lookup_empty. by destruct (bool_decide (k ∈ keys)). }
    rewrite foldl_app, fmap_app. simpl.
    destruct (decide (x = k)) as [->|Hne].
    - rewrite (bool_decide_eq_true_2 (k ∈ l.*1 ++ [k]))
        by (apply elem_of_app; right; by apply list_elem_of_singleton).
      destruct (bool_decide (k ∈ keys)); [exact IH|].
      by rewrite lookup_insert_eq.
    - assert (bool_decide (k ∈ l.*1 ++ [x]) = bool_decide (k ∈ l.*1)) as ->.
      { apply bool_decide_ext. rewrite elem_of_app, list_elem_of_singleton.
        split; [intros [?|?]; [done|congruence]|by left]. }
      destruct (bool_decide (x ∈ keys)); [exact IH|].
      by rewrite lookup_insert_ne. }
  rewrite Hl. destruct (bool_decide (k ∈ keys)); [done|].
  destruct (attributes m !! k) as [v|] eqn:Hk; simpl.
  - rewrite bool_decide_eq_true_2; [done|].
    apply list_elem_of_fmap. exists (k, v). split; [done|].
    by apply elem_of_map_to_list.
  - rewrite bool_decide_eq_false_2; [done|].
    intros ([k' v] & -> & Hin)%list_elem_of_fmap.
    apply elem_of_map_to_list in Hin. simpl in *. congruence.
Qed.

(** X10.  [only(keys)] and [except(keys)] split the attributes between them:
    no key is in both, and together they hold every attribute the entity
    has, each with the value that [getAttribute] gives. *)
Theorem only_and_except_split_the_attributes keys (m : Model) :
  only H cls keys m ##ₘ except H cls keys m ∧
  only H cls keys m ∪ except H cls keys m
  = map_imap (λ k _, Some (getAttribute H cls k m)) (attributes m).
Proof.
  split.
  - apply map_disjoint_spec. intros k x y Ho He.
    rewrite only_lookup in Ho. rewrite except_lookup in He.
    by destruct (bool_decide (k ∈ keys)).
  - apply map_eq. intros k.
    rewrite lookup_union, only_lookup, except_lookup, map_lookup_imap.
    destruct (bool_decide (k ∈ keys)); by destruct (attributes m !! k).
Qed.

End Insertion.

Section Statics.
Context (H : Host) (registry : gmap string ModelClass).

Lemma where_object_spec (o : gmap string jsval) qb :
  k_wheres (query (where_object o qb))
  = k_wheres (query qb) ++ ((λ kv, PEq kv.1 kv.2) <$> map_to_list o) ∧
  k_table (query (where_object o qb)) = k_table (query qb) ∧
  eagerLoad (where_object o qb) = eagerLoad qb ∧
  (∀ cls, soft_delete_filter cls (where_object o qb) = soft_delete_filter cls qb).
Proof.
  unfold where_object.
  induction (map_to_list o) as [|kv l IH] using rev_ind; simpl.
  { by rewrite app_nil_r. }
  rewrite foldl_app, fmap_app. simpl.
  destruct IH as (IH1 & IH2 & IH3 & IH4).
  rewrite IH1, IH2, IH3, app_assoc. by split_and!.
Qed.

Lemma matches_all_app ps qs (r : gmap string jsval) :
  matches_all (ps ++ qs) r = matches_all ps r && matches_all qs r.
Proof. apply forallb_app. Qed.

Lemma matches_object (o r : gmap string jsval) :
  (∀ k x, o !! k = Some x → nullish x = false ∧ r !! k = Some x) →
  matches_all ((λ kv, PEq kv.1 kv.2) <$> map_to_list o) r = true.
Proof.
  intros Ho. unfold matches_all. apply forallb_forall. intros p Hp.
  apply list_elem_of_In, list_elem_of_fmap in Hp as ([k x] & -> & Hin).
  apply elem_of_map_to_list in Hin. destruct (Ho k x Hin) as [Hn Hr].
  simpl. by apply matches_eq.
Qed.


(** X12.  [updateOrCreate] never updates on a class that lists nothing as
    fillable: when the search finds an entity, the values go through [fill],
    which drops them all, so the entity comes back as it was found and the
    engine is asked nothing more. *)
Theorem updateOrCreate_cannot_update_a_guarded_class cls a v w m w1 :
  fillable cls = [] → "*" ∈ guarded cls →
  first H registry cls (where_object a (query_of cls)) w = (Ok (Some m), w1) →
  updateOrCreate H registry cls a v w = (Ok m, w1).
Proof.
  intros Hf Hg Hfirst. unfold updateOrCreate, bind. rewrite Hfirst.
  destruct (first_clean H registry cls _ w m w1 Hfirst) as (He & Hd & _ & Hdef).
  unfold update. rewrite fill_nothing by done.
  rewrite save_clean by done. by rewrite initialize_idem.
Qed.

End Statics.

(** ** Eager loading and the builder's switches *)

Section EagerFacts.
Context (H : Host) (registry : gmap string ModelClass).

Lemma string_app_assoc (a b c : string) : (a +:+ b) +:+ c = a +:+ b +:+ c.
Proof.
  induction a as [|x a IH]; [done|].
  change (String x ((a +:+ b) +:+ c) = String x (a +:+ b +:+ c)).
  by rewrite IH.
Qed.

Lemma split_dot_nonempty s : split_dot s ≠ [].
Proof.
  destruct s as [|c s]; [done|]. simpl.
  destruct (Ascii.eqb c _); [done|]. by destruct (split_dot s).
Qed.

Lemma split_dot_app r s :
  split_dot r = [r] → split_dot s = [s] → split_dot (r +:+ s) = [r +:+ s].
Proof.
  intros Hr Hs. induction r as [|c r IH]; [done|].
  simpl in Hr |- *. destruct (Ascii.eqb c _).
  - pose proof (split_dot_nonempty r). by destruct (split_dot r).
  - destruct (split_dot r) as [|h t] eqn:Hsplit; [by destruct (split_dot_nonempty r)|].
    injection Hr as <- ->. by rewrite IH.
Qed.

(** What [get] answers when the first eager load names no relation method
    of the class. *)
Lemma get_missing_relation cls qb relationName others relation rest w :
  eagerLoad qb = relationName :: others →
  split_dot relationName = relation :: rest →
  relationMethods cls !! relation = None →
  get H registry cls qb w
  = (match filter (λ r, matches_all (k_wheres (filtered cls qb)) r = true)
                  (rows_of w (k_table (query qb))) with
     | [] => Ok []
     | _ :: _ => Throw ("Relation '" +:+ relation +:+ "' not found on model")
     end,
     log (EvSelect (k_table (query qb)) (k_wheres (filtered cls qb))) w).
Proof.
  intros He Hs Hm. unfold get, bind, knex_select. rewrite He.
  change (k_table (filtered cls qb)) with (k_table (query qb)).
  destruct (filter _ _) as [|row rows]; [done|].
  unfold loadRelations. rewrite fmap_cons, He. cbn [load_each]. unfold bind.
  unfold loadRelation. rewrite Hs.
  destruct rest; cbn [load_path]; by rewrite Hm.
Qed.


(** X14.  [withCount] counts nothing: it queues an eager load called
    [<relation>_count], so unless the class has a relation method of that
    very name, [get] fails whenever the query answers with a row. *)
Theorem withCount_fails_on_any_row cls qb relation more w :
  eagerLoad qb = [] → split_dot relation = [relation] →
  relationMethods cls !! (relation +:+ "_count") = None →
  let counted := withCount (relation :: more) qb in
  eagerLoad counted
  = (relation +:+ "_count") :: ((λ r, r +:+ "_count") <$> more) ∧
  (filter (λ r, matches_all (k_wheres (filtered cls qb)) r = true)
          (rows_of w (k_table (query qb))) ≠ [] →
   (get H registry cls counted w).1
   = Throw ("Relation '" +:+ relation +:+ "_count' not found on model")).
Proof.
  intros He Hs Hm counted.
  assert (eagerLoad counted
          = (relation +:+ "_count") :: ((λ r, r +:+ "_count") <$> more)) as Hc.
  { subst counted. unfold withCount. simpl. by rewrite He. }
  split; [done|]. intros Hrows.
  rewrite (get_missing_relation cls counted _ _ (relation +:+ "_count") [] w Hc);
    [| by apply split_dot_app | done].
  change (filtered cls counted) with (filtered cls qb).
  change (query counted) with (query qb). simpl.
  destruct (filter _ _); [done|].
  by rewrite string_app_assoc.
Qed.

Lemma load_path_keeps (P : Model → Prop) cls constraint relation rest
    (models : list Model) w ms w' :
  (∀ k r m, P m → P (with_relation k r m)) →
  load_path H registry cls constraint relation rest models w = (Ok ms, w') →
  Forall P models → Forall P ms.
Proof.
  intros HP Hl Hc. apply load_path_shape in Hl as [->|(rel & grouped & ->)]; [done|].
  rewrite Forall_fmap. eapply Forall_impl; [exact Hc|].
  intros m Hm. unfold assign_related. simpl. case_match; by apply HP.
Qed.

Lemma loadRelations_keeps (P : Model → Prop) cls qb (models : list Model) w ms w' :
  (∀ k r m, P m → P (with_relation k r m)) →
  loadRelations H registry cls qb models w = (Ok ms, w') →
  Forall P models → Forall P ms.
Proof.
  intros HP. unfold loadRelations. destruct models as [|m0 models0]; [by intros [= <- <-]|].
  generalize (m0 :: models0). clear m0 models0.
  intros models. revert models w.
  induction (eagerLoad qb) as [|n names IH]; intros models w; simpl.
  { by intros [= <- <-]. }
  unfold bind, loadRelation.
  destruct (split_dot n) as [|relation rest].
  { unfold ret. intros Hr Hc. by eapply IH. }
  destruct (load_path H registry cls _ relation rest models w)
    as [[ms1|msg] w1] eqn:Hl; [|done].
  intros Hr Hc. eapply IH; [exact Hr|]. by eapply load_path_keeps.
Qed.

(** Every entity that [get] answers with carries the attributes of a row
    that passed the filter. *)
Lemma get_from_rows cls qb w ms w' :
  get H registry cls qb w = (Ok ms, w') →
  Forall (λ m, ∃ row,
            row ∈ rows_of w (k_table (query qb)) ∧
            matches_all (k_wheres (filtered cls qb)) row = true ∧
            attributes m = attributes (hydrate H cls row)) ms.
Proof.
  unfold get, bind, knex_select.
  change (k_table (filtered cls qb)) with (k_table (query qb)).
  set (rows := filter _ _).
  assert (Forall (λ m, ∃ row,
            row ∈ rows_of w (k_table (query qb)) ∧
            matches_all (k_wheres (filtered cls qb)) row = true ∧
            attributes m = attributes (hydrate H cls row))
            (hydrate H cls <$> rows)) as Hall.
  { rewrite Forall_fmap. apply Forall_forall. intros row Hin.
    apply list_elem_of_filter in Hin as [Hf Hin]. by exists row. }
  destruct (eagerLoad qb); [by intros [= <- <-]|].
  intros Hl. eapply loadRelations_keeps; [|exact Hl|exact Hall]. done.
Qed.

(** X15.  A clone has forgotten [withTrashed()] and [onlyTrashed()]: on a
    soft-deleting class, whatever switches the builder had, every entity
    that the clone's [get] answers with has a null [deleted_at]. *)
Theorem clone_forgets_the_trashed_switches cls qb w m :
  softDeletes cls = true → casts cls !! "deleted_at" = None →
  m ∈ returned H registry cls (clone qb) w →
  sql_null (attributes m !! "deleted_at") = true.
Proof.
  intros Hs Hc. unfold returned.
  destruct (get H registry cls (clone qb) w) as [[ms|msg] w'] eqn:Hg; simpl;
    [|by intros ?%elem_of_nil].
  intros Hin. apply get_from_rows in Hg.
  rewrite Forall_forall in Hg. destruct (Hg m Hin) as (row & _ & Hf & ->).
  rewrite hydrate_lookup_plain by done.
  unfold filtered, soft_delete_filter in Hf. rewrite Hs in Hf. simpl in Hf.
  unfold matches_all in Hf. rewrite forallb_app in Hf.
  apply andb_true_iff in Hf as [_ Hf]. simpl in Hf.
  by rewrite andb_true_r in Hf.
Qed.

Lemma assign_related_belongsTo cls rel relation relatedClass
    (relatedArray : list Model) (owner : Model) :
  kind rel = BelongsTo →
  assign_related H cls rel relation
    (group_related H relatedClass relatedArray) owner
  = with_relation relation
      (match filter (λ r, related_key H relatedClass r
                          = toPropertyKey H (getAttribute H cls (foreignKey rel) owner))
                    relatedArray with
       | m :: _ => ROne m
       | [] => RNull
       end)
      owner.
Proof.
  intros Hk. unfold assign_related, is_singular. rewrite Hk.
  assert (bool_decide (BelongsTo = BelongsTo) = true) as -> by done.
  rewrite orb_true_r.
  rewrite group_related_lookup. by destruct (filter _ relatedArray).
Qed.


End EagerFacts.

(** ** Relations resolved for one owner, and pivot tables *)

Section RelationFacts.
Context (H : Host) (registry : gmap string ModelClass).

Lemma matches_all_cons p ps (r : gmap string jsval) :
  matches_all (p :: ps) r = true ↔ matches r p = true ∧ matches_all ps r = true.
Proof. unfold matches_all. cbn [forallb]. apply andb_true_iff. Qed.

Lemma truthy_not_nullish v : truthy v = true → nullish v = false.
Proof. by destruct v. Qed.

(** X17.  A child that [morphMany] finds for an owner leads back, through
    [morphTo], to the lookup of the owner's [id] by primary key in the
    owner's table: the type name that [morphMany] filters on is the class
    name under which the owner's class is registered. *)
Theorem morphMany_then_morphTo cls related_ relatedClass type id
    (parent : Model) k w ms w1 child :
  registry !! name cls = Some cls → name cls ≠ "" →
  registry !! related_ = Some relatedClass →
  casts relatedClass !! type = None → casts relatedClass !! id = None →
  getAttribute H cls "id" parent = k → truthy k = true →
  morphMany_getResults H registry cls (morphMany cls related_ type id) parent w
  = (Ok ms, w1) →
  child ∈ ms →
  morphTo_getResults H registry relatedClass (morphTo type id) child w1
  = first H registry cls
      (qb_where (PEq (primaryKey cls) k) (new_builder (getTableName cls))) w1.
Proof.
  intros Hreg Hname Hrel Hct Hci Hk Htruthy Hres Hin.
  unfold morphMany_getResults, morphMany, newQuery, getRelatedClass in Hres.
  cbn [mm_relation related morphId morphType localKey morphClass] in Hres.
  rewrite Hrel in Hres.
  unfold get, bind, knex_select, ret in Hres.
  cbn [eagerLoad qb_where new_builder] in Hres.
  match type of Hres with (Ok ?l, _) = _ => set (fetched := l) in Hres end.
  injection Hres as <- <-. subst fetched.
  apply list_elem_of_fmap in Hin as (row & -> & Hin).
  apply list_elem_of_filter in Hin as [Hm _].
  unfold filtered in Hm.
  cbn [k_wheres query qb_where new_builder k_where app] in Hm.
  apply matches_all_cons in Hm as [Htype Hm].
  apply matches_all_cons in Hm as [Hid _].
  rewrite Hk in Hid.
  apply matches_eq in Htype; [|done].
  apply matches_eq in Hid; [|by apply truthy_not_nullish].
  unfold morphTo_getResults, morphTo. cbn [morphType morphId].
  assert (getAttribute H relatedClass type (hydrate H relatedClass row)
          = VStr (name cls)) as ->.
  { unfold getAttribute, prop. rewrite Hct, hydrate_lookup_plain, Htype by done.
    done. }
  assert (getAttribute H relatedClass id (hydrate H relatedClass row) = k) as ->.
  { unfold getAttribute, prop. rewrite Hci, hydrate_lookup_plain, Hid by done.
    done. }
  rewrite Htruthy. cbn [truthy].
  destruct (String.eqb_spec (name cls) ""); [done|]. simpl.
  by rewrite Hreg.
Qed.

Lemma attach_each_rows cls rel (parent : Model) ids : ∀ w,
  let k := getAttribute H cls (parentKey rel) parent in
  let w' := (attach_each H cls rel parent ids w).2 in
  rows_of w' (pivotTable rel)
  = rows_of w (pivotTable rel) ++ (pivot_row rel k (clock w) <$> ids) ∧
  (∀ t, t ≠ pivotTable rel → rows_of w' t = rows_of w t).
Proof.
  induction ids as [|id ids IH]; intros w; simpl.
  { split; [by rewrite app_nil_r|done]. }
  assert (attach H cls rel parent id ∅ w
          = (tt, log (EvInsert (pivotTable rel)
                        (pivot_row rel (getAttribute H cls (parentKey rel) parent)
                           (clock w) id))
                   (set_rows (pivotTable rel)
                      (rows_of w (pivotTable rel)
                       ++ [pivot_row rel (getAttribute H cls (parentKey rel) parent)
                             (clock w) id]) w))) as Ha.
  { unfold attach, pivot_row, bind. rewrite (left_id_L ∅ (∪)).
    by destruct (pivotTimestamps rel). }
  unfold bind. rewrite Ha.
  match goal with |- context [attach_each H cls rel parent ids ?x] =>
    destruct (IH x) as [IH1 IH2]; set (w1 := x) in * end.
  simpl in IH1, IH2. split.
  - rewrite IH1. subst w1. unfold rows_of at 1. simpl.
    rewrite lookup_insert_eq. simpl. by rewrite <- app_assoc.
  - intros t Ht. rewrite IH2 by done. subst w1. unfold rows_of. simpl.
    by rewrite lookup_insert_ne.
Qed.

(** X18.  [sync(ids)] leaves the owner with exactly one pivot row per
    element of [ids], in that order, each with the time of its insert when
    the relation keeps timestamps, and touches nothing else: the rows of
    other owners stay, and so does every other table. *)
Theorem sync_replaces_the_pivot_rows cls rel (parent : Model) ids k w :
  getAttribute H cls (parentKey rel) parent = k → nullish k = false →
  let w' := (sync H cls rel parent ids w).2 in
  (∃ times,
     length times = length ids ∧
     rows_of w' (pivotTable rel)
     = filter (λ r, r !! parentPivotKey rel ≠ Some k)
              (rows_of w (pivotTable rel))
       ++ zip_with (pivot_row rel k) times ids) ∧
  (∀ t, t ≠ pivotTable rel → rows_of w' t = rows_of w t).
Proof.
  intros Hk Hnull. unfold sync, bind, detach. rewrite Hk.
  rewrite bool_decide_eq_true_2 by done.
  unfold knex_del. cbn [k_table k_wheres k_where app].
  match goal with |- context [attach_each H cls rel parent ids ?x] =>
    destruct (attach_each_rows cls rel parent ids x) as [H1 H2];
    set (w1 := x) in * end.
  rewrite Hk in H1. cbv zeta in *.
  split.
  - exists (replicate (length ids) (clock w)).
    split; [by rewrite length_replicate|].
    rewrite zip_with_replicate_l by done.
    rewrite H1. subst w1. unfold rows_of at 1. simpl.
    rewrite lookup_insert_eq. simpl. f_equal.
    apply list_filter_iff. intros r.
    change (matches_all [PEq (parentPivotKey rel) k] r)
      with (matches r (PEq (parentPivotKey rel) k) && true).
    rewrite andb_true_r, <- (matches_eq _ _ _ Hnull).
    by rewrite not_true_iff_false.
  - intros t Ht. rewrite H2 by done. subst w1. unfold rows_of. simpl.
    by rewrite lookup_insert_ne.
Qed.

Lemma sort2_comm a b : join "_" (sort2 a b) = join "_" (sort2 b a).
Proof.
  unfold sort2, String.ltb.
  rewrite (String.compare_antisym a b).
  destruct (String.compare b a) eqn:Hc; simpl; try done.
  apply String.compare_eq_iff in Hc. by subst.
Qed.

(** X19.  The two sides of a many-to-many relation that is declared without
    names agree: both derive the same pivot table from the two table names,
    whichever side asks, and the column that one side uses for itself is the
    column that the other side uses for its counterpart. *)
Theorem default_pivot_names_agree clsA clsB :
  registry !! name clsA = Some clsA → registry !! name clsB = Some clsB →
  ∃ ab ba,
    belongsToMany registry clsA (name clsB) None None None None None = Ok ab ∧
    belongsToMany registry clsB (name clsA) None None None None None = Ok ba ∧
    pivotTable ab = pivotTable ba ∧
    parentPivotKey ab = relatedPivotKey ba ∧
    relatedPivotKey ab = parentPivotKey ba.
Proof.
  intros HA HB. unfold belongsToMany, getRelatedClass. simpl.
  rewrite HA, HB. eexists _, _. split; [reflexivity|]. split; [reflexivity|].
  simpl. split; [apply sort2_comm|done].
Qed.

(** X20.  Asking one owner for a [hasMany] relation gives exactly the rows
    of the related table whose foreign key holds the owner's local key,
    those that the soft-delete filter hides apart.  An owner whose local key
    is [null] is given the rows whose foreign key is null. *)
Theorem lazy_hasMany_returns_the_matching_rows cls rel (parent : Model)
    relatedName relatedClass k w :
  related rel = RName relatedName → registry !! relatedName = Some relatedClass →
  getAttribute H cls (localKey rel) parent = k →
  let hidden := soft_delete_filter relatedClass (new_builder "") in
  let asked := log (EvSelect (getTableName relatedClass)
                      (PEq (foreignKey rel) k :: hidden)) w in
  (nullish k = false →
   hasMany_getResults H registry cls rel parent w
   = (Ok (hydrate H relatedClass <$>
          filter (λ r, r !! foreignKey rel = Some k ∧ matches_all hidden r = true)
                 (rows_of w (getTableName relatedClass))),
      asked)) ∧
  (k = VNull →
   hasMany_getResults H registry cls rel parent w
   = (Ok (hydrate H relatedClass <$>
          filter (λ r, sql_null (r !! foreignKey rel) = true ∧
                       matches_all hidden r = true)
                 (rows_of w (getTableName relatedClass))),
      asked)).
Proof.
  intros Hrel Hreg Hk hidden asked. subst asked.
  unfold hasMany_getResults, newQuery, getRelatedClass. rewrite Hrel, Hreg, Hk.
  unfold get, bind, knex_select, ret.
  cbn [eagerLoad qb_where new_builder].
  change (k_wheres (filtered relatedClass
            (qb_where (PEq (foreignKey rel) k)
               (new_builder (getTableName relatedClass)))))
    with (PEq (foreignKey rel) k :: hidden).
  change (k_table (filtered relatedClass
            (qb_where (PEq (foreignKey rel) k)
               (new_builder (getTableName relatedClass)))))
    with (getTableName relatedClass).
  split.
  - intros Hn. f_equal. f_equal. f_equal.
    apply list_filter_iff. intros r.
    by rewrite matches_all_cons, (matches_eq _ _ _ Hn).
  - intros ->. f_equal. f_equal. f_equal.
    apply list_filter_iff. intros r. by rewrite matches_all_cons.
Qed.

End RelationFacts.

(** ** The registry and the casts *)

Section RegistryFacts.
Context (H : Host) (registry : gmap string ModelClass).

(** X21.  Once a class with a name has called [register()], its name
    resolves to it: the registry has it, a relation that names it gets it as
    its related class, and no other name is affected.  A class without a
    name is not registered at all. *)
Theorem registered_class_resolves cls :
  let models := register cls registry in
  (name cls ≠ "" →
   ModelRegistry.get models (VStr (name cls)) = Some cls ∧
   ModelRegistry.has models (VStr (name cls)) = true ∧
   (∀ rel, related rel = RName (name cls) →
           getRelatedClass models rel = Ok cls) ∧
   (∀ n, n ≠ name cls →
         ModelRegistry.get models (VStr n) = ModelRegistry.get registry (VStr n))) ∧
  (name cls = "" → models = registry).
Proof.
  simpl. unfold register, ModelRegistry.register. split.
  - intros Hn. destruct (String.eqb_spec (name cls) ""); [done|].
    unfold ModelRegistry.has, ModelRegistry.get, getRelatedClass.
    rewrite lookup_insert_eq. split_and!; [done|done| |].
    + intros rel ->. by rewrite lookup_insert_eq.
    + intros n' Hne. by rewrite lookup_insert_ne.
  - by intros ->.
Qed.

End RegistryFacts.

Section CastFacts.
Context (h : CastHost).

(** X22.  No cast but [JsonCast] stores a falsy value: [null], [undefined],
    [false], [0], [NaN] and the empty string all become [null] on the way
    in, and every cast reads a falsy stored value as [null]. *)
Theorem casts_turn_falsy_values_into_null v :
  c_truthy v = false →
  MoneyCast_set h v = CNull ∧ EncryptedCast_set h v = CNull ∧
  ArrayCast_set h v = CNull ∧ DateCast_set h v = Ok CNull ∧
  MoneyCast_get h v = CNull ∧ EncryptedCast_get h v = CNull ∧
  ArrayCast_get h v = Ok CNull ∧ DateCast_get h v = CNull ∧
  JsonCast_get h v = Ok CNull ∧
  MoneyCast_get h (MoneyCast_set h v) = CNull.
Proof.
  intros Hv.
  unfold MoneyCast_set, EncryptedCast_set, ArrayCast_set, DateCast_set,
    MoneyCast_get, EncryptedCast_get, ArrayCast_get, DateCast_get, JsonCast_get.
  rewrite Hv. simpl. by split_and!.
Qed.

(** X23.  An array goes through [ArrayCast] and comes back as it was,
    whenever [JSON.stringify] gives a non-empty text for it that
    [JSON.parse] reads back as that array.  A value that is not an array is
    stored as it is. *)
Theorem array_cast_round_trip :
  (∀ items s,
     stringify h (CArr items) = CStr s → s ≠ "" →
     parse h (CStr s) = Some (CArr items) →
     ArrayCast_get h (ArrayCast_set h (CArr items)) = Ok (CArr items)) ∧
  (∀ v, c_truthy v = true → (∀ items, v ≠ CArr items) → ArrayCast_set h v = v).
Proof.
  split.
  - intros items s Hs Hne Hp. unfold ArrayCast_set. simpl. rewrite Hs.
    unfold ArrayCast_get. simpl. destruct (String.eqb_spec s ""); [done|].
    simpl. by rewrite Hp.
  - intros v Hv Hna. unfold ArrayCast_set. rewrite Hv. simpl.
    destruct v; try done. by destruct (Hna items).
Qed.

End CastFacts.

(** ** Collections *)

Section CollectionFacts.
Context {A : Type}.
Implicit Types l : list A.

Lemma relative_index_bounds len i :
  0 ≤ len → 0 ≤ Collection.relative_index len i ≤ len.
Proof. unfold Collection.relative_index. case_match; lia. Qed.

Lemma slice_to_end l r :
  0 ≤ r ≤ Z.of_nat (length l) →
  firstn (Z.to_nat (Z.of_nat (length l) - r)) (skipn (Z.to_nat r) l)
  = skipn (Z.to_nat r) l.
Proof.
  intros Hr. apply firstn_all2. rewrite length_skipn. lia.
Qed.

(** X24.  [take(n)] and [skip(n)] cut the collection in two at the same
    place, whatever the integer [n] is: negative counts are counted from the
    end by both, and counts beyond the length stop at the length. *)
Theorem take_and_skip_split_the_collection (n : Z) l :
  Collection.take n l ++ Collection.skip n l = l ∧
  (0 ≤ n → length (Collection.take n l) = Nat.min (Z.to_nat n) (length l)) ∧
  (n < 0 → length (Collection.skip n l) = Nat.min (Z.to_nat (- n)) (length l)).
Proof.
  unfold Collection.take, Collection.skip, Collection.slice.
  set (len := Z.of_nat (length l)).
  assert (0 ≤ len) as Hlen by lia.
  pose proof (relative_index_bounds len n Hlen) as Hr.
  assert (Collection.relative_index len 0 = 0) as ->.
  { unfold Collection.relative_index. simpl. lia. }
  set (r := Collection.relative_index len n) in *.
  rewrite Z.sub_0_r. change (Z.to_nat 0) with 0%nat. rewrite skipn_O.
  subst len. rewrite slice_to_end by done.
  split; [apply firstn_skipn|]. split.
  - intros Hn. rewrite length_firstn. subst r. unfold Collection.relative_index.
    destruct (Z.ltb_spec n 0); lia.
  - intros Hn. rewrite length_skipn. subst r. unfold Collection.relative_index.
    destruct (Z.ltb_spec n 0); lia.
Qed.

Lemma slice_chunk (size i : Z) l :
  0 < size → 0 ≤ i < Z.of_nat (length l) →
  Collection.slice i (Some (i + size)) l
  = firstn (Z.to_nat size) (skipn (Z.to_nat i) l).
Proof.
  intros Hs Hi. unfold Collection.slice, Collection.relative_index.
  destruct (Z.ltb_spec i 0); [lia|].
  destruct (Z.ltb_spec (i + size) 0); [lia|].
  rewrite (Z.min_l i) by lia.
  destruct (Z.le_gt_cases (i + size) (Z.of_nat (length l))).
  - rewrite Z.min_l by lia. f_equal. lia.
  - rewrite Z.min_r by lia.
    rewrite !firstn_all2; [done| |]; rewrite length_skipn; lia.
Qed.

Lemma chunk_loop_spec (size : Z) l : 0 < size →
  ∀ fuel i chunks,
    0 ≤ i → (0 < fuel)%nat → Z.of_nat (length l) - i < Z.of_nat fuel →
    ∃ rest,
      Collection.chunk_loop fuel size i l chunks = Some (chunks ++ rest) ∧
      concat rest = skipn (Z.to_nat i) l ∧
      Forall (λ c, (0 < length c ≤ Z.to_nat size)%nat) rest ∧
      ∀ j c, rest !! j = Some c → (S j < length rest)%nat →
             length c = Z.to_nat size.
Proof.
  intros Hs fuel. induction fuel as [|fuel IH]; intros i chunks Hi Hpos Hfuel; [lia|].
  simpl. destruct (Z.ltb_spec i (Z.of_nat (length l))) as [Hlt|Hge].
  - destruct (IH (i + size)
               (chunks ++ [Collection.slice i (Some (i + size)) l]))
      as (rest & -> & Hc & Hall & Hfull); [lia|lia|lia|].
    rewrite slice_chunk in * by lia.
    set (d := skipn (Z.to_nat i) l) in *.
    assert (skipn (Z.to_nat (i + size)) l = skipn (Z.to_nat size) d) as Hd.
    { subst d. rewrite skipn_skipn. f_equal. lia. }
    assert (length d = Z.to_nat (Z.of_nat (length l) - i)) as Hld.
    { subst d. rewrite length_skipn. lia. }
    exists (firstn (Z.to_nat size) d :: rest).
    rewrite <- app_assoc. split; [done|]. split_and!.
    + simpl. rewrite Hc, Hd. apply firstn_skipn.
    + constructor; [|done]. rewrite length_firstn. lia.
    + intros [|j] c Hj Hlen; simpl in *.
      * injection Hj as <-. rewrite length_firstn.
        destruct rest as [|c' rest']; [simpl in Hlen; lia|].
        assert (skipn (Z.to_nat size) d ≠ []) as Hne.
        { rewrite <- Hd, <- Hc. simpl.
          apply Forall_cons in Hall as [Hc' _]. destruct c'; [simpl in Hc'; lia|done]. }
        assert (Z.to_nat size < length d)%nat; [|lia].
        destruct (Nat.lt_ge_cases (Z.to_nat size) (length d)); [done|].
        destruct Hne. by apply skipn_all2.
      * apply (Hfull j); [done|lia].
  - exists []. rewrite app_nil_r. split; [done|]. split_and!.
    + simpl. symmetry. apply skipn_all2. lia.
    + constructor.
    + intros j c Hj. done.
Qed.

Lemma flatten_arrays (cs : list (list A)) :
  Collection.flatten (inr <$> cs) = concat cs.
Proof.
  unfold Collection.flatten.
  assert (∀ acc, foldl (λ result (item : A + list A),
                          match item with
                          | inr items => result ++ items
                          | inl x => result ++ [x]
                          end) acc (inr <$> cs) = acc ++ concat cs) as Hgen.
  { induction cs as [|c cs IH]; intros acc; simpl; [by rewrite app_nil_r|].
    by rewrite IH, app_assoc. }
  apply (Hgen []).
Qed.

(** X25.  [chunk(size)] with a positive size returns, and cuts the
    collection into consecutive pieces: put end to end again (which is what
    [flatten] does) they give the collection back, no piece is empty or
    longer than [size], and every piece but the last has exactly [size]
    items. *)
Theorem chunk_cuts_into_pieces (size : Z) l fuel :
  0 < size → (length l < fuel)%nat →
  ∃ cs,
    Collection.chunk fuel size l = Some cs ∧
    Collection.flatten (inr <$> cs) = l ∧
    Forall (λ c, (0 < length c ≤ Z.to_nat size)%nat) cs ∧
    ∀ j c, cs !! j = Some c → (S j < length cs)%nat → length c = Z.to_nat size.
Proof.
  intros Hs Hfuel.
  destruct (chunk_loop_spec size l Hs fuel 0 []) as (cs & Hr & Hc & Hall & Hfull);
    [lia|lia|lia|].
  exists cs. split; [exact Hr|]. rewrite flatten_arrays. by split.
Qed.

(** X26.  [chunk(size)] with a size of zero or less never returns on a
    collection that has an item: the loop index does not move forward, so
    the loop condition holds for ever. *)
Theorem chunk_without_positive_size_never_returns (size : Z) l fuel :
  size ≤ 0 → l ≠ [] → Collection.chunk fuel size l = None.
Proof.
  intros Hs Hl. unfold Collection.chunk.
  assert (∀ i chunks, i ≤ 0 → Collection.chunk_loop fuel size i l chunks = None)
    as Hgen; [|by apply Hgen].
  induction fuel as [|fuel IH]; intros i chunks Hi; [done|].
  simpl. destruct (Z.ltb_spec i (Z.of_nat (length l))) as [Hlt|Hge].
  - apply IH. lia.
  - destruct l; [done|]. simpl in Hge. lia.
Qed.

Lemma partition_from_spec (callback : A → nat → bool) l : ∀ i passed failed,
  Collection.partition_from callback i l passed failed
  = (passed ++ Collection.filter_from callback i l,
     failed ++ Collection.filter_from (λ x j, negb (callback x j)) i l).
Proof.
  induction l as [|x l IH]; intros i passed failed; simpl.
  { by rewrite !app_nil_r. }
  destruct (callback x i); simpl; rewrite IH; by rewrite <- app_assoc.
Qed.

Lemma filter_from_split (callback : A → nat → bool) l : ∀ i,
  Collection.filter_from callback i l
  ++ Collection.filter_from (λ x j, negb (callback x j)) i l ≡ₚ l.
Proof.
  induction l as [|x l IH]; intros i; simpl; [done|].
  destruct (callback x i); simpl.
  - by rewrite IH.
  - by rewrite <- Permutation_middle, IH.
Qed.

(** X27.  [partition(callback)] gives what [filter(callback)] and
    [reject(callback)] give, as a pair; between them the two halves hold
    every item of the collection once. *)
Theorem partition_is_filter_and_reject (callback : A → nat → bool) l :
  Collection.partition callback l
  = (Collection.filter callback l, Collection.reject callback l) ∧
  (Collection.partition callback l).1 ++ (Collection.partition callback l).2 ≡ₚ l.
Proof.
  unfold Collection.partition, Collection.filter, Collection.reject.
  rewrite partition_from_spec. simpl. split; [done|]. apply filter_from_split.
Qed.

Context (same : A → A → bool).
Context {V : Type} `{EqDecision V}.
Context (field : A → string → V) (key_of : V → string).

Lemma unique_loop_seen key l : ∀ (seen : list V) (kept : list A) v,
  v ∈ seen →
  v ∈ (foldl (λ (st : list V * list A) item,
                let value := field item key in
                if bool_decide (value ∈ st.1) then st
                else (st.1 ++ [value], st.2 ++ [item]))
             (seen, kept) l).1.
Proof.
  induction l as [|z l IH]; intros seen kept v Hv; [done|]. simpl.
  destruct (bool_decide (field z key ∈ seen)); apply IH; [done|].
  apply elem_of_app. by left.
Qed.

Lemma unique_loop_spec key l : ∀ (seen : list V) (kept : list A),
  let st := foldl (λ (st : list V * list A) item,
                     let value := field item key in
                     if bool_decide (value ∈ st.1) then st
                     else (st.1 ++ [value], st.2 ++ [item]))
                  (seen, kept) l in
  seen = (λ x, field x key) <$> kept → NoDup seen →
  st.1 = (λ x, field x key) <$> st.2 ∧ NoDup st.1 ∧
  (∃ more, st.2 = kept ++ more ∧ more `sublist_of` l) ∧
  (∀ x, x ∈ l → field x key ∈ st.1).
Proof.
  induction l as [|x l IH]; intros seen kept st Hs Hnd; subst st; simpl.
  { split_and!; [done|done| |by intros ? ?%elem_of_nil].
    exists []. by rewrite app_nil_r. }
  destruct (decide (field x key ∈ seen)) as [Hin|Hnin].
  - rewrite bool_decide_eq_true_2 by done.
    destruct (IH seen kept Hs Hnd) as (H1 & H2 & (more & H3 & H4) & H5).
    split_and!; [done|done| |].
    + exists more. split; [done|]. by apply sublist_cons.
    + intros y [->|Hy]%elem_of_cons; [|by apply H5].
      by apply unique_loop_seen.
  - rewrite bool_decide_eq_false_2 by done. simpl.
    destruct (IH (seen ++ [field x key]) (kept ++ [x]))
      as (H1 & H2 & (more & H3 & H4) & H5).
    { by rewrite fmap_app, Hs. }
    { apply NoDup_app. split_and!; [done| |apply NoDup_singleton].
      intros v Hv ->%list_elem_of_singleton. done. }
    split_and!; [done|done| |].
    + exists (x :: more). split; [by rewrite <- app_assoc in H3|].
      by apply sublist_skip.
    + intros y [->|Hy]%elem_of_cons; [|by apply H5].
      apply unique_loop_seen. apply elem_of_app. right.
      by apply list_elem_of_singleton.
Qed.

(** X28.  [unique(key)], for a key other than the empty string, keeps items
    of the collection, in their order, no two of them with the same value
    under [key], and leaves no value out: every item of the collection has
    an item with its value among those kept. *)
Theorem unique_keeps_one_item_per_value key l :
  key ≠ "" →
  let kept := Collection.unique same field (Some key) l in
  kept `sublist_of` l ∧
  NoDup ((λ x, field x key) <$> kept) ∧
  (∀ x, x ∈ l → ∃ y, y ∈ kept ∧ field y key = field x key).
Proof.
  intros Hkey. unfold Collection.unique.
  destruct (String.eqb_spec key "") as [|_]; [done|].
  destruct (unique_loop_spec key l [] [] eq_refl (NoDup_nil_2))
    as (H1 & H2 & (more & H3 & H4) & H5).
  simpl in *. split_and!.
  - by rewrite H3.
  - by rewrite <- H1.
  - intros x Hx. specialize (H5 x Hx). rewrite H1 in H5.
    apply list_elem_of_fmap in H5 as (y & Hy & Hin). by exists y.
Qed.

Lemma groupBy_throws key l msg :
  foldl (λ (acc : Result (gmap string (list A))) item,
           match acc with
           | Throw msg => Throw msg
           | Ok groups =>
               let groupKey := key_of (field item key) in
               match groups !! groupKey with
               | Some group => Ok (<[groupKey := group ++ [item]]> groups)
               | None =>
                   if bool_decide (groupKey ∈ Collection.inherited)
                   then Throw "groups[groupKey].push is not a function"
                   else Ok (<[groupKey := [item]]> groups)
               end
           end)
        (Throw msg) l = Throw msg.
Proof. by induction l. Qed.

Lemma groupBy_spec key l :
  match Collection.groupBy field key_of key l with
  | Ok groups =>
      Forall (λ x, key_of (field x key) ∉ Collection.inherited) l ∧
      ∀ k, groups !! k
           = match base.filter (λ x, key_of (field x key) = k) l with
             | [] => None
             | g => Some g
             end
  | Throw msg =>
      Exists (λ x, key_of (field x key) ∈ Collection.inherited) l ∧
      msg = "groups[groupKey].push is not a function"
  end.
Proof.
  induction l as [|x l IH] using rev_ind; [by split|].
  unfold Collection.groupBy in *. rewrite foldl_app. simpl.
  destruct (foldl _ (Ok ∅) l) as [groups|msg].
  - destruct IH as [Hall Hgroups].
    destruct (groups !! key_of (field x key)) as [group|] eqn:Hg.
    + split.
      * apply Forall_app. split; [done|]. apply Forall_singleton.
        rewrite Hgroups in Hg.
        destruct (base.filter _ l) as [|y g] eqn:Hf; [done|].
        assert (y ∈ base.filter (λ z, key_of (field z key) = key_of (field x key)) l)
          as [Hy Hin]%list_elem_of_filter by (rewrite Hf; left).
        rewrite <- Hy. by eapply Forall_forall in Hall.
      * intros k. rewrite filter_app, filter_cons, filter_nil.
        destruct (decide (key_of (field x key) = k)) as [<-|Hne].
        -- rewrite lookup_insert_eq. rewrite Hgroups in Hg.
           destruct (base.filter _ l); [done|]. by injection Hg as <-.
        -- rewrite lookup_insert_ne by done. by rewrite Hgroups, app_nil_r.
    + destruct (decide (key_of (field x key) ∈ Collection.inherited)) as [Hi|Hi].
      * rewrite bool_decide_eq_true_2 by done. split; [|done].
        apply Exists_app. right. by apply Exists_cons_hd.
      * rewrite bool_decide_eq_false_2 by done. split.
        -- apply Forall_app. split; [done|]. by apply Forall_singleton.
        -- intros k. rewrite filter_app, filter_cons, filter_nil.
           destruct (decide (key_of (field x key) = k)) as [<-|Hne].
           ++ rewrite lookup_insert_eq. rewrite Hgroups in Hg.
              by destruct (base.filter _ l).
           ++ rewrite lookup_insert_ne by done. by rewrite Hgroups, app_nil_r.
  - destruct IH as [Hex ->]. split; [|done]. apply Exists_app. by left.
Qed.

(** X29.  [groupBy(key)] files every item under the property key of its
    value: the group of a key holds, in order, the items of the collection
    with that key, and a key has a group only if some item has it.  That is
    so unless the key of some item is a name that every object inherits,
    such as [constructor]: then [groupBy] throws. *)
Theorem groupBy_files_every_item key l :
  (Forall (λ x, key_of (field x key) ∉ Collection.inherited) l →
   ∃ groups,
     Collection.groupBy field key_of key l = Ok groups ∧
     ∀ k g, groups !! k = Some g ↔
            g ≠ [] ∧ g = base.filter (λ x, key_of (field x key) = k) l) ∧
  (Exists (λ x, key_of (field x key) ∈ Collection.inherited) l →
   Collection.groupBy field key_of key l
   = Throw "groups[groupKey].push is not a function").
Proof.
  pose proof (groupBy_spec key l) as Hspec.
  destruct (Collection.groupBy field key_of key l) as [groups|msg].
  - destruct Hspec as [Hall Hgroups]. split.
    + intros _. exists groups. split; [done|]. intros k g. rewrite Hgroups.
      destruct (base.filter _ l) as [|y g']; split.
      * done.
      * by intros [? ->].
      * by intros [= <-].
      * by intros [_ ->].
    + intros (x & Hx & Hi)%Exists_exists.
      by eapply Forall_forall in Hall.
  - destruct Hspec as [Hex ->]. split; [|done].
    intros Hall. apply Exists_exists in Hex as (x & Hx & Hi).
    by eapply Forall_forall in Hall.
Qed.

End CollectionFacts.

(** ** The further properties, on the examples *)

Ltac in_list :=
  apply list_elem_of_In; vm_compute;
  repeat first [left; reflexivity | right].

Ltac not_in_list :=
  let Hin := fresh in
  intros Hin%list_elem_of_In; vm_compute in Hin;
  repeat (destruct Hin as [Hin|Hin]; [discriminate Hin|]); exact Hin.

Ltac run := vm_compute; reflexivity.

Lemma quiet_without_handlers cls :
  globalScopes cls = [] → events cls = ∅ → quiet cls.
Proof.
  intros Hs He. split; [done|]. intros evt. rewrite He, lookup_empty.
  constructor.
Qed.

Lemma Account_quiet : quiet Account.
Proof.
  split; [reflexivity|]. intros evt. unfold Account, events.
  destruct (decide (evt = "deleting")) as [->|Hne].
  - rewrite lookup_singleton_eq. repeat constructor. intros Heq. discriminate Heq.
  - rewrite lookup_singleton_ne by done. constructor.
Qed.

Lemma fill_respects_guard_witness :
  let attrs := row_of [("title", VStr "a"); ("admin", VBool true)] in
  fill sample_host Order attrs draft = draft ∧
  attributes (fill sample_host Post attrs draft) !! "admin" = None ∧
  attributes (fill sample_host Post attrs draft) !! "title" = Some (VStr "a").
Proof.
  intros attrs.
  destruct (fill_respects_guard sample_host Order attrs draft) as (H1 & _ & _).
  destruct (fill_respects_guard sample_host Post attrs draft) as (_ & H2 & H3).
  specialize (H1 eq_refl ltac:(in_list)).
  destruct (H2 "admin" ltac:(run)) as [H4 _].
  specialize (H3 "title" (VStr "a") ltac:(run) ltac:(run) ltac:(run)).
  split; [exact H1|]. split; [|exact H3].
  etrans; [exact H4|run].
Defined.

Lemma update_on_guarded_class_is_silent_witness :
  let m := hydrate sample_host Order (row_of [("id", VNum 1)]) in
  update sample_host Order (row_of [("total", VNum 9)]) m shop
  = (true, _initialize sample_host Order m, shop).
Proof.
  intros m.
  apply (update_on_guarded_class_is_silent sample_host Order).
  - reflexivity.
  - in_list.
  - run.
  - run.
Defined.









Lemma updateOrCreate_cannot_update_a_guarded_class_witness :
  let a : gmap string jsval := {[ "id" := VNum 1 ]} in
  let v : gmap string jsval := {[ "total" := VNum 9 ]} in
  let f := first sample_host shop_registry Order
             (where_object a (query_of Order)) shop in
  updateOrCreate sample_host shop_registry Order a v shop
  = (Ok (hydrate sample_host Order (row_of [("id", VNum 1)])), f.2).
Proof.
  intros a v f.
  apply (updateOrCreate_cannot_update_a_guarded_class sample_host shop_registry
           Order a v shop).
  - reflexivity.
  - in_list.
  - run.
Defined.


Lemma withCount_fails_on_any_row_witness :
  (get sample_host shop_registry Order
     (withCount ["items"] (query_of Order)) shop).1
  = Throw "Relation 'items_count' not found on model".
Proof.
  destruct (withCount_fails_on_any_row sample_host shop_registry Order
              (query_of Order) "items" [] shop
              ltac:(run) ltac:(run) ltac:(run)) as [_ Hw].
  etrans; [apply Hw|run].
  intros Heq. vm_compute in Heq. discriminate Heq.
Defined.

Lemma clone_forgets_the_trashed_switches_witness :
  let ada := hydrate sample_host Account
               (row_of [("id", VNum 1); ("owner", VStr "ada")]) in
  let bob := hydrate sample_host Account
               (row_of [("id", VNum 2); ("owner", VStr "bob")]) in
  let w := (delete_ sample_host Account ada bank).2 in
  returned sample_host shop_registry Account
    (clone (onlyTrashed (query_of Account))) w = [bob] ∧
  sql_null (attributes bob !! "deleted_at") = true.
Proof.
  intros ada bob w. split; [run|].
  apply (clone_forgets_the_trashed_switches sample_host shop_registry Account
           (onlyTrashed (query_of Account)) w bob).
  - reflexivity.
  - run.
  - in_list.
Defined.


Lemma morphMany_then_morphTo_witness :
  let post := hydrate sample_host Post
                (row_of [("id", VNum 1); ("title", VStr "hello")]) in
  let comment := hydrate sample_host Comment
                   (row_of [("id", VNum 3); ("commentable_type", VStr "Post");
                            ("commentable_id", VNum 1)]) in
  let found := morphMany_getResults sample_host blog_registry Post
                 (morphMany Post "Comment" "commentable_type" "commentable_id")
                 post blog in
  found.1 = Ok [comment] ∧
  morphTo_getResults sample_host blog_registry Comment
    (morphTo "commentable_type" "commentable_id") comment found.2
  = first sample_host blog_registry Post
      (qb_where (PEq (primaryKey Post) (VNum 1))
         (new_builder (getTableName Post))) found.2.
Proof.
  intros post comment found. split; [run|].
  apply (morphMany_then_morphTo sample_host blog_registry Post "Comment" Comment
           "commentable_type" "commentable_id" post (VNum 1) blog [comment]
           found.2 comment).
  - run.
  - intros Heq. discriminate Heq.
  - run.
  - run.
  - run.
  - run.
  - reflexivity.
  - run.
  - in_list.
Defined.

Lemma sync_replaces_the_pivot_rows_witness :
  let order := hydrate sample_host Order (row_of [("id", VNum 1)]) in
  rows_of (sync sample_host Order order_items order [VNum 11; VNum 12] stock).2
    (pivotTable order_items)
  = [row_of [("order_id", VNum 2); ("item_id", VNum 12)];
     row_of [("order_id", VNum 1); ("item_id", VNum 11)];
     row_of [("order_id", VNum 1); ("item_id", VNum 12)]].
Proof.
  intros order.
  destruct (sync_replaces_the_pivot_rows sample_host Order order_items order
              [VNum 11; VNum 12] (VNum 1) stock ltac:(run) eq_refl)
    as [(times & Hlen & Hrows) _].
  etrans; [exact Hrows|].
  destruct times as [|t1 [|t2 [|t3 times]]]; try discriminate Hlen.
  run.
Defined.

Lemma default_pivot_names_agree_witness :
  ∃ ab ba,
    belongsToMany shop_registry Order (name Item) None None None None None
    = Ok ab ∧
    belongsToMany shop_registry Item (name Order) None None None None None
    = Ok ba ∧
    pivotTable ab = pivotTable ba ∧
    parentPivotKey ab = relatedPivotKey ba ∧
    relatedPivotKey ab = parentPivotKey ba.
Proof.
  apply (default_pivot_names_agree shop_registry Order Item); run.
Defined.

Lemma lazy_hasMany_returns_the_matching_rows_witness :
  let order := hydrate sample_host Order (row_of [("id", VNum 1)]) in
  (hasMany_getResults sample_host shop_registry Order
     (mkRelation HasMany (RName "Item") "order_id" "id" "" "") order shop).1
  = Ok (hydrate sample_host Item <$>
          [row_of [("id", VNum 10); ("order_id", VNum 1)];
           row_of [("id", VNum 11); ("order_id", VNum 1)]]).
Proof.
  intros order.
  destruct (lazy_hasMany_returns_the_matching_rows sample_host shop_registry
              Order (mkRelation HasMany (RName "Item") "order_id" "id" "" "")
              order "Item" Item (VNum 1) shop eq_refl ltac:(run) ltac:(run))
    as [Hw _].
  specialize (Hw eq_refl). apply (f_equal fst) in Hw.
  etrans; [exact Hw|run].
Defined.

Lemma registered_class_resolves_witness :
  ModelRegistry.get (register Post shop_registry) (VStr (name Post)) = Some Post ∧
  ModelRegistry.has (register Post shop_registry) (VStr (name Post)) = true.
Proof.
  destruct (registered_class_resolves shop_registry Post) as [Hw _].
  destruct Hw as (H1 & H2 & _); [intros Heq; discriminate Heq|].
  split; [exact H1|exact H2].
Defined.

Lemma casts_turn_falsy_values_into_null_witness :
  MoneyCast_set sample_cast_host (CStr "") = CNull ∧
  ArrayCast_set sample_cast_host (CStr "") = CNull ∧
  DateCast_get sample_cast_host (CStr "") = CNull.
Proof.
  destruct (casts_turn_falsy_values_into_null sample_cast_host (CStr "") eq_refl)
    as (H1 & _ & H3 & _ & _ & _ & _ & H8 & _).
  split; [exact H1|]. split; [exact H3|exact H8].
Defined.

Lemma array_cast_round_trip_witness :
  ArrayCast_get array_cast_host (ArrayCast_set array_cast_host (CArr []))
  = Ok (CArr []).
Proof.
  destruct (array_cast_round_trip array_cast_host) as [Hw _].
  apply (Hw [] "[]").
  - reflexivity.
  - intros Heq. discriminate Heq.
  - reflexivity.
Defined.

Lemma chunk_cuts_into_pieces_witness :
  ∃ cs,
    Collection.chunk 6 2 [1; 2; 3; 4; 5] = Some cs ∧
    Collection.flatten (inr <$> cs) = [1; 2; 3; 4; 5].
Proof.
  destruct (chunk_cuts_into_pieces 2 [1; 2; 3; 4; 5] 6) as (cs & H1 & H2 & _).
  - lia.
  - simpl. lia.
  - exists cs. split; [exact H1|exact H2].
Defined.

Lemma chunk_without_positive_size_never_returns_witness :
  Collection.chunk 1000 0 [1; 2; 3] = None.
Proof.
  apply chunk_without_positive_size_never_returns.
  - lia.
  - intros Heq. discriminate Heq.
Defined.

Lemma unique_keeps_one_item_per_value_witness :
  let l := [("a", 1); ("b", 2); ("c", 1)] in
  let kept := Collection.unique (λ _ _, false) member_field (Some "group") l in
  kept `sublist_of` l ∧ NoDup ((λ x, member_field x "group") <$> kept).
Proof.
  intros l kept.
  destruct (unique_keeps_one_item_per_value (λ _ _, false) member_field
              "group" l) as (H1 & H2 & _).
  - intros Heq. discriminate Heq.
  - split; [exact H1|exact H2].
Defined.

Lemma groupBy_files_every_item_witness :
  let l := [("a", 1); ("b", 2); ("c", 1)] in
  let key_of (v : Z) := if bool_decide (v = 1) then "constructor" else "two" in
  Collection.groupBy member_field key_of "group" l
  = Throw "groups[groupKey].push is not a function" ∧
  ∃ groups,
    Collection.groupBy member_field pretty "group" l = Ok groups ∧
    groups !! "1" = Some [("a", 1); ("c", 1)].
Proof.
  intros l key_of. split.
  - destruct (groupBy_files_every_item member_field key_of "group" l) as [_ Hw].
    apply Hw. apply Exists_cons_hd. in_list.
  - destruct (groupBy_files_every_item member_field pretty "group" l)
      as [Hw _].
    destruct Hw as (groups & H1 & H2).
    + repeat constructor; not_in_list.
    + exists groups. split; [exact H1|]. apply H2. split; [|run].
      intros Heq. discriminate Heq.
Defined.
